(** * locknut: an encrypting access layer over a bbolt store

    A shallow embedding of [aes.go] and [locknut.go].

    Conventions of the embedding.
    - A Go [[]byte] is a [list byte]; the nil slice and the empty slice are
      both the empty list, except where the source tests a slice against nil
      ([bl.secret], the [data] of [SaveBytes]): those are [option bytes],
      with [None] for nil.
    - A Go [string] is a [string]; [[]byte(s)] and [string(b)] on keys are
      the identity.
    - A Go [(T, error)] result whose value is nil whenever the error is set is
      a [result T]; where the source returns both a value and an error
      ([GetByPrefix], [GetKeyList]) the pair is kept.
    - A run-time panic (nil pointer dereference) is the [Panic] exit.
    - The libraries the package calls (crypto/aes, crypto/cipher,
      crypto/sha256, crypto/rand, encoding/json, bbolt) are not part of the
      repository.  AES-GCM, SHA-256 and JSON are the methods of the class
      [Extern]; crypto/rand is a tape of bytes; bbolt is modelled by its
      documented behaviour on an ordered bucket. *)

From Stdlib Require Import List String Ascii Bool Arith ZArith Lia.
From Stdlib Require Import Init.Byte.
From Stdlib Require Import Sorting.Sorted.
From stdpp Require Import base option gmap strings list fin_maps.

Local Open Scope list_scope.
Local Open Scope nat_scope.

(** ** Values and errors *)

Definition bytes := list byte.

(** The error values the package and its libraries produce. *)
Inductive error : Type :=
| ErrFileNameInvalid                 (* locknut: "invalid file name" *)
| ErrPathInvalid                     (* locknut: "invalid path name" *)
| ErrKeyInvalid                      (* locknut: "invalid key or key is nil" *)
| ErrDataNil                         (* errors.New("data is nil") *)
| ErrDeleteKeyNil                    (* errors.New("cannot delete, key is nil") *)
| ErrDecrypt (e : error)             (* "Decrypt error from db " + err.Error() *)
| ErrEncrypt (e : error)             (* "Encrypt error from db " + err.Error() *)
| ErrCiphertextTooShort              (* errors.New("ciphertext too short") *)
| KeySizeError (n : nat)             (* crypto/aes: invalid key size n *)
| ErrGCMBlockSize                    (* crypto/cipher: NewGCM requires 128-bit block cipher *)
| ErrGCMOpen                         (* cipher: message authentication failed *)
| ErrEOF                             (* io.EOF: the source ended before any byte was read *)
| ErrUnexpectedEOF                   (* io.ErrUnexpectedEOF: the source ended part of the way *)
| ErrBucketNotFound                  (* bbolt *)
| ErrBucketNameRequired              (* bbolt *)
| ErrKeyRequired                     (* bbolt *)
| ErrKeyTooLarge                     (* bbolt *)
| ErrValueTooLarge                   (* bbolt *)
| ErrIO (msg : string).              (* any other failure of the OS or a library *)

Inductive result (A : Type) : Type :=
| Ok (a : A)
| Err (e : error).
Arguments Ok {A} a.
Arguments Err {A} e.

(** How a Go call ends: it returns, or it panics. *)
Inductive exit (A : Type) : Type :=
| Return (a : A)
| Panic.
Arguments Return {A} a.
Arguments Panic {A}.

(** ** The libraries behind [aes.go] *)

(** AES-GCM sealing and opening with no associated data, SHA-256 and
    [json.Marshal], as the package uses them.  [gcm_seal key nonce plain] is
    the ciphertext followed by the tag; [gcm_open] is [None] when the tag does
    not verify. *)
Class Extern : Type := {
  value : Type;
  json_Marshal : value -> result bytes;
  sha256_Sum256 : bytes -> bytes;
  gcm_seal : bytes -> bytes -> bytes -> bytes;
  gcm_open : bytes -> bytes -> bytes -> option bytes
}.

(** What the package relies on from those libraries: a SHA-256 digest has 32
    bytes, and opening what was sealed under the same key and nonce gives the
    plaintext back. *)
Class ExternLaws (E : Extern) : Prop := {
  sha256_Size : forall m : bytes, length (sha256_Sum256 m) = 32;
  gcm_open_seal : forall key nonce plain : bytes,
      length nonce = 12 ->
      gcm_open key nonce (gcm_seal key nonce plain) = Some plain
}.

(** [cipher.Block] as returned by [aes.NewCipher]. *)
Record Block : Type := { block_key : bytes; BlockSize : nat }.

(** [aes.NewCipher]: the key must have 16, 24 or 32 bytes. *)
Definition aes_NewCipher (key : bytes) : result Block :=
  let k := length key in
  if (k =? 16) || (k =? 24) || (k =? 32)
  then Ok {| block_key := key; BlockSize := 16 |}
  else Err (KeySizeError k).

(** [cipher.AEAD] as returned by [cipher.NewGCM]. *)
Record AEAD : Type := { aead_key : bytes; NonceSize : nat }.

Definition cipher_NewGCM (c : Block) : result AEAD :=
  if BlockSize c =? 16
  then Ok {| aead_key := block_key c; NonceSize := 12 |}
  else Err ErrGCMBlockSize.

(** [io.ReadFull(rand.Reader, buf)] with [len(buf) = n]: the next [n] bytes of
    the random tape.  When the source ends first, the error is [io.EOF] if
    no byte was read and [io.ErrUnexpectedEOF] if some were; what was read
    is gone. *)
Definition io_ReadFull (rnd : bytes) (n : nat) : result bytes * bytes :=
  if n <=? length rnd
  then (Ok (firstn n rnd), skipn n rnd)
  else if length rnd =? 0
       then (Err ErrEOF, [])
       else (Err ErrUnexpectedEOF, []).

Section Cryptor.
Context `{E : Extern}.

(** [gcm.Seal(dst, nonce, plaintext, nil)] appends to [dst]. *)
Definition Seal (g : AEAD) (dst nonce plaintext : bytes) : bytes :=
  dst ++ gcm_seal (aead_key g) nonce plaintext.

(** [gcm.Open(nil, nonce, ciphertext, nil)]. *)
Definition Open (g : AEAD) (nonce ciphertext : bytes) : result bytes :=
  match gcm_open (aead_key g) nonce ciphertext with
  | Some plain => Ok plain
  | None => Err ErrGCMOpen
  end.

(** aes.go, [Decrypt] (without receiver). *)
Definition Decrypt (ciphertext key : bytes) : result bytes :=
  match aes_NewCipher key with
  | Err err => Err err
  | Ok c =>
    match cipher_NewGCM c with
    | Err err => Err err
    | Ok gcm =>
      let nonceSize := NonceSize gcm in
      if length ciphertext <? nonceSize
      then Err ErrCiphertextTooShort
      else
        let nonce := firstn nonceSize ciphertext in
        let ct := skipn nonceSize ciphertext in
        Open gcm nonce ct
    end
  end.

(** aes.go, [Encrypt] (without receiver).  The second component is what is
    left of the random tape. *)
Definition Encrypt (plain key : bytes) (rnd : bytes) : result bytes * bytes :=
  match aes_NewCipher key with
  | Err err => (Err err, rnd)
  | Ok c =>
    match cipher_NewGCM c with
    | Err err => (Err err, rnd)
    | Ok gcm =>
      match io_ReadFull rnd (NonceSize gcm) with
      | (Err err, rnd') => (Err err, rnd')
      | (Ok nonce, rnd') => (Ok (Seal gcm nonce nonce plain), rnd')
      end
    end
  end.

(** aes.go, [GetRandKey]: [rand.Read(key)] on a 32-byte buffer, which is
    [io.ReadFull(rand.Reader, key)] in the Go releases whose [rand.Read]
    can return the error the function checks for.  (Later releases end the
    process instead when the source fails; no property below is about that
    failure.) *)
Definition GetRandKey (rnd : bytes) : result bytes * bytes :=
  io_ReadFull rnd 32.

End Cryptor.

(** ** The bbolt engine, as [locknut.go] uses it *)

(** A bucket holds its records in ascending key order (byte-wise
    lexicographic, [String.compare]), one record per key.  The file is a map
    from bucket names to buckets. *)
Definition Bucket := list (string * bytes).
Abbreviation Disk := (gmap string Bucket).

Definition MaxKeySize : Z := 32768.
Definition MaxValueSize : Z := 2147483646.

(** [bytes.HasPrefix(k, prefix)]. *)
Definition HasPrefix (k prefix : string) : bool := String.prefix prefix k.

(** Insertion of a record at its place in the order, replacing the record of
    an equal key. *)
Fixpoint bucket_put (k : string) (v : bytes) (b : Bucket) : Bucket :=
  match b with
  | [] => [(k, v)]
  | (k', v') :: b' =>
    match String.compare k k' with
    | Lt => (k, v) :: b
    | Eq => (k, v) :: b'
    | Gt => (k', v') :: bucket_put k v b'
    end
  end.

(** Removal of the record of a key, if there is one. *)
Fixpoint bucket_delete (k : string) (b : Bucket) : Bucket :=
  match b with
  | [] => []
  | (k', v') :: b' =>
    if String.eqb k k' then bucket_delete k b' else (k', v') :: bucket_delete k b'
  end.

(** The value stored under a key. *)
Fixpoint bucket_get (k : string) (b : Bucket) : option bytes :=
  match b with
  | [] => None
  | (k', v') :: b' => if String.eqb k k' then Some v' else bucket_get k b'
  end.

(** A cursor is the records from its position on.  [Cursor.Seek(seek)] moves
    to the first record whose key is not below [seek]; the record under the
    cursor is the head, and [(nil, nil)] is returned when there is none;
    [Cursor.Next()] moves to the tail. *)
Definition Cursor := list (string * bytes).

Fixpoint Cursor_Seek (seek : string) (b : Bucket) : Cursor :=
  match b with
  | [] => []
  | (k', v') :: b' => if String.ltb k' seek then Cursor_Seek seek b' else b
  end.

(** [tx.Bucket(name)]: nil when there is no such bucket. *)
Definition Tx_Bucket (name : string) (tx : Disk) : option Bucket := tx !! name.

(** [tx.CreateBucketIfNotExists(name)]. *)
Definition CreateBucketIfNotExists (name : string) (tx : Disk) : result Disk :=
  if String.length name =? 0 then Err ErrBucketNameRequired
  else match tx !! name with
       | Some _ => Ok tx
       | None => Ok (<[name := []]> tx)
       end.

(** How the function given to [db.Update] ends: with the changed file, with
    an error, or in a panic. *)
Inductive wexit : Type :=
| WOk (tx : Disk)
| WErr (e : error)
| WPanic.

(** [bkt.Put(key, value)] on the bucket [tx.Bucket(bucket)] returned.  The
    method dereferences its receiver first, so a nil bucket panics; then, as
    bbolt documents, it returns [ErrKeyRequired] for a blank key,
    [ErrKeyTooLarge] and [ErrValueTooLarge] beyond [MaxKeySize] and
    [MaxValueSize], and otherwise sets the key to the value. *)
Definition Bucket_Put (bkt : option Bucket) (bucket key : string) (v : bytes)
    (tx : Disk) : wexit :=
  match bkt with
  | None => WPanic
  | Some b =>
    if String.length key =? 0 then WErr ErrKeyRequired
    else if (MaxKeySize <? Z.of_nat (String.length key))%Z then WErr ErrKeyTooLarge
    else if (MaxValueSize <? Z.of_nat (length v))%Z then WErr ErrValueTooLarge
    else WOk (<[bucket := bucket_put key v b]> tx)
  end.

(** [bkt.Delete(key)]: the same dereference of the receiver first; removing
    a key that is not there is not an error. *)
Definition Bucket_Delete (bkt : option Bucket) (bucket key : string)
    (tx : Disk) : wexit :=
  match bkt with
  | None => WPanic
  | Some b => WOk (<[bucket := bucket_delete key b]> tx)
  end.

(** ** The world outside the handle *)

(** An open connection; [conn_id] tells the connections of one run apart. *)
Record boltDB : Type := { conn_id : nat }.

(** The database file of the handle, the bytes crypto/rand will deliver, the
    outcomes of the coming [bbolt.Open] calls (none scheduled: the call
    succeeds), and two probes counting the connections opened and closed. *)
Record World : Type := {
  disk : Disk;
  rand_Reader : bytes;
  open_results : list (option error);
  opened : nat;
  closed : nat
}.

Definition set_disk (d : Disk) (w : World) : World :=
  {| disk := d; rand_Reader := rand_Reader w; open_results := open_results w;
     opened := opened w; closed := closed w |}.

Definition set_rand (r : bytes) (w : World) : World :=
  {| disk := disk w; rand_Reader := r; open_results := open_results w;
     opened := opened w; closed := closed w |}.

(** [bbolt.Open(path, 0600, nil)]: it fails as scheduled, or yields a new
    connection.  The lock bbolt takes on the file is not represented: a
    handle that satisfies [lifecycle_inv] below never opens the file while
    it still holds a connection to it. *)
Definition bbolt_Open (w : World) : result boltDB * World :=
  match open_results w with
  | Some err :: rest =>
    (Err err,
     {| disk := disk w; rand_Reader := rand_Reader w; open_results := rest;
        opened := opened w; closed := closed w |})
  | rest =>
    (Ok {| conn_id := S (opened w) |},
     {| disk := disk w; rand_Reader := rand_Reader w; open_results := tail rest;
        opened := S (opened w); closed := closed w |})
  end.

(** [db.Close()]. *)
Definition DB_Close (w : World) : World :=
  {| disk := disk w; rand_Reader := rand_Reader w; open_results := open_results w;
     opened := opened w; closed := S (closed w) |}.

(** locknut.go, method [view] of [boltDB]: the function reads the file; what it leaves
    in the variables it captured, and the error it returned, come back. *)
Definition view {A : Type} (fn : Disk -> A * option error) (w : World)
    : A * option error :=
  fn (disk w).

(** locknut.go, method [update] of [boltDB]: the transaction commits when
    the function returns no error and is rolled back otherwise (also when the
    function panics, which [db.Update] does not recover from); the random
    tape is outside the transaction.  A failure of the commit itself is not
    represented. *)
Definition update (fn : Disk -> bytes -> wexit * bytes) (w : World)
    : exit (option error) * World :=
  match fn (disk w) (rand_Reader w) with
  | (WOk tx, rnd) => (Return None, set_rand rnd (set_disk tx w))
  | (WErr err, rnd) => (Return (Some err), set_rand rnd w)
  | (WPanic, rnd) => (Panic, set_rand rnd w)
  end.

(** ** locknut.go: the handle *)

Record BoltLocknut : Type := {
  name : string;
  path : string;
  fullPath : string;
  secret : option bytes;
  buckets : list string;
  batchMode : bool;
  db : option boltDB
}.

Definition set_secret (s : option bytes) (bl : BoltLocknut) : BoltLocknut :=
  {| name := name bl; path := path bl; fullPath := fullPath bl; secret := s;
     buckets := buckets bl; batchMode := batchMode bl; db := db bl |}.

Definition set_batchMode (m : bool) (bl : BoltLocknut) : BoltLocknut :=
  {| name := name bl; path := path bl; fullPath := fullPath bl;
     secret := secret bl; buckets := buckets bl; batchMode := m; db := db bl |}.

Definition set_db (d : option boltDB) (bl : BoltLocknut) : BoltLocknut :=
  {| name := name bl; path := path bl; fullPath := fullPath bl;
     secret := secret bl; buckets := buckets bl; batchMode := batchMode bl;
     db := d |}.

(** [len(s)] of a slice that may be nil. *)
Definition len (s : option bytes) : nat :=
  match s with
  | Some b => length b
  | None => 0
  end.

(** The bytes of a slice that may be nil. *)
Definition contents (s : option bytes) : bytes :=
  match s with
  | Some b => b
  | None => []
  end.

(** [isNil d]: the connection reference is nil. *)
Definition isNil {A : Type} (o : option A) : bool :=
  match o with
  | Some _ => false
  | None => true
  end.

(** [os.Stat] as the constructor uses it: the kind of file at a path, if any. *)
Inductive FileMode : Type := ModeDir | ModeRegular | ModeOther.

(** The elements of a path between its separators; [acc] is the element
    being read. *)
Fixpoint path_elements (s acc : string) : list string :=
  match s with
  | EmptyString => [acc]
  | String c s' =>
    if Ascii.eqb c "/"
    then acc :: path_elements s' EmptyString
    else path_elements s' (acc ++ String c EmptyString)%string
  end.

(** The elements [filepath.Clean] keeps, last one first: empty elements and
    [.] are dropped, [..] removes the element before it, is dropped at the
    root and is kept at the start of a path that is not rooted. *)
Fixpoint clean_elements (rooted : bool) (els out : list string) : list string :=
  match els with
  | [] => out
  | e :: els' =>
    if String.eqb e EmptyString || String.eqb e "."
    then clean_elements rooted els' out
    else if String.eqb e ".."
    then match out with
         | top :: out' =>
           if String.eqb top ".."
           then clean_elements rooted els' (e :: out)
           else clean_elements rooted els' out'
         | [] =>
           if rooted
           then clean_elements rooted els' []
           else clean_elements rooted els' [e]
         end
    else clean_elements rooted els' (e :: out)
  end.

(** [filepath.Clean] where the separator is [/]: the shortest path that names
    the same file by the rules above, and [.] for an empty result. *)
Definition filepath_Clean (p : string) : string :=
  let rooted := match p with
                | String c _ => Ascii.eqb c "/"
                | EmptyString => false
                end in
  let kept := String.concat "/" (rev (clean_elements rooted (path_elements p EmptyString) [])) in
  let out := ((if rooted then "/" else EmptyString) ++ kept)%string in
  if String.eqb out EmptyString then "."%string else out.

(** [filepath.Join(path, name)]: the elements from the first one that is not
    empty on, joined with the separator and cleaned; the empty string when
    both are empty. *)
Definition filepath_Join (path name : string) : string :=
  if negb (String.eqb path EmptyString)
  then filepath_Clean (path ++ "/" ++ name)%string
  else if negb (String.eqb name EmptyString)
       then filepath_Clean name
       else EmptyString.

Section Locknut.
Context `{E : Extern}.

(** locknut.go, [SetSecret]. *)
Definition SetSecret (bl : BoltLocknut) (secret0 : option bytes) : BoltLocknut :=
  let bl := set_secret secret0 bl in
  if len secret0 <? 32
  then
    let sh := sha256_Sum256 (contents secret0) in
    set_secret (Some sh) bl
  else bl.

(** locknut.go, [closeDB]. *)
Definition closeDB (bl : BoltLocknut) (w : World) : BoltLocknut * World :=
  if negb (batchMode bl) && negb (isNil (db bl))
  then (set_db None bl, DB_Close w)
  else (bl, w).

(** locknut.go, [SetBatchMode]. *)
Definition SetBatchMode (bl : BoltLocknut) (w : World) (mode : bool)
    : BoltLocknut * World :=
  let bl := set_batchMode mode bl in
  if negb mode then closeDB bl w else (bl, w).

(** The closure [initbuckets] of [openDB]. *)
Fixpoint initbuckets (names : list string) (tx : Disk) : result Disk :=
  match names with
  | [] => Ok tx
  | bname :: rest =>
    match CreateBucketIfNotExists bname tx with
    | Err err => Err err
    | Ok tx' => initbuckets rest tx'
    end
  end.

Definition initbuckets_tx (names : list string) (tx : Disk) (rnd : bytes)
    : wexit * bytes :=
  match initbuckets names tx with
  | Ok tx' => (WOk tx', rnd)
  | Err err => (WErr err, rnd)
  end.

(** locknut.go, [openDB]. *)
Definition openDB (bl : BoltLocknut) (w : World)
    : exit (option error) * BoltLocknut * World :=
  if batchMode bl && negb (isNil (db bl)) then (Return None, bl, w)
  else
    match bbolt_Open w with
    | (Err err, w1) => (Return (Some err), bl, w1)
    | (Ok d, w1) =>
      match update (initbuckets_tx (buckets bl)) w1 with
      | (Return (Some err), w2) => (Return (Some err), bl, DB_Close w2)
      | (Return None, w2) => (Return None, set_db (Some d) bl, w2)
      | (Panic, w2) => (Panic, bl, w2)
      end
    end.

(** The frame every public operation puts around its work:
    [if err = bl.openDB(); err != nil { return ..., err }] and
    [defer bl.closeDB()].  The deferred call runs on every way out of the
    body, a panic included.  The body reads the handle and does not change
    it. *)
Definition scoped {A : Type} (bl : BoltLocknut) (w : World)
    (on_err : error -> A) (body : BoltLocknut -> World -> exit A * World)
    : exit A * BoltLocknut * World :=
  match openDB bl w with
  | (Panic, bl1, w1) => (Panic, bl1, w1)
  | (Return (Some err), bl1, w1) => (Return (on_err err), bl1, w1)
  | (Return None, bl1, w1) =>
    let '(x, w2) := body bl1 w1 in
    let '(bl3, w3) := closeDB bl1 w2 in
    (x, bl3, w3)
  end.

(** The loop of [GetByPrefix]'s closure, from the cursor position on.  At
    the end of the bucket the cursor yields [(nil, nil)]: either the prefix
    test fails, or the prefix is empty and the corner case breaks. *)
Fixpoint GetByPrefix_loop (sec : option bytes) (prefixKey : string)
    (cursor : Cursor) (results : gmap string bytes)
    : gmap string bytes * option error :=
  match cursor with
  | [] => (results, None)
  | (k, v) :: next =>
    if HasPrefix k prefixKey then
      if (String.length prefixKey =? 0) && (String.length k =? 0) && (length v =? 0)
      then (results, None)
      else
        match sec with
        | Some key =>
          let content := v in
          match Decrypt content key with
          | Err err => (results, Some (ErrDecrypt err))
          | Ok dec => GetByPrefix_loop sec prefixKey next (<[k := dec]> results)
          end
        | None => GetByPrefix_loop sec prefixKey next (<[k := v]> results)
        end
    else (results, None)
  end.

(** The closure [seekPrefix] of [GetByPrefix]; the first component is the
    map [results] it writes to. *)
Definition GetByPrefix_seekPrefix (sec : option bytes) (bucket prefix : string)
    (results : gmap string bytes) (tx : Disk)
    : gmap string bytes * option error :=
  let prefixKey := prefix in
  match Tx_Bucket bucket tx with
  | None => (results, Some ErrBucketNotFound)
  | Some bkt => GetByPrefix_loop sec prefixKey (Cursor_Seek prefixKey bkt) results
  end.

(** locknut.go, [GetByPrefix]: returns [(results, err)]; the map is nil
    ([None]) only when the connection could not be opened. *)
Definition GetByPrefix (bl : BoltLocknut) (w : World) (bucket prefix : string)
    : exit (option (gmap string bytes) * option error) * BoltLocknut * World :=
  scoped bl w (fun err => (None, Some err))
    (fun bl w =>
       let results : gmap string bytes := ∅ in
       let '(results, err) :=
         view (GetByPrefix_seekPrefix (secret bl) bucket prefix results) w in
       (Return (Some results, err), w)).

(** The loop of [GetKeyList]'s closure. *)
Fixpoint GetKeyList_loop (prefixKey : string) (cursor : Cursor)
    (results : list string) : list string :=
  match cursor with
  | [] => results
  | (k, _) :: next =>
    if HasPrefix k prefixKey
    then GetKeyList_loop prefixKey next (results ++ [k])
    else results
  end.

Definition GetKeyList_seekPrefix (bucket prefix : string)
    (results : list string) (tx : Disk) : list string * option error :=
  let prefixKey := prefix in
  match Tx_Bucket bucket tx with
  | None => (results, Some ErrBucketNotFound)
  | Some bkt => (GetKeyList_loop prefixKey (Cursor_Seek prefixKey bkt) results, None)
  end.

(** locknut.go, [GetKeyList]. *)
Definition GetKeyList (bl : BoltLocknut) (w : World) (bucket prefix : string)
    : exit (option (list string) * option error) * BoltLocknut * World :=
  scoped bl w (fun err => (None, Some err))
    (fun bl w =>
       let results : list string := [] in
       let '(results, err) := view (GetKeyList_seekPrefix bucket prefix results) w in
       (Return (Some results, err), w)).

(** The closure [seek] of [GetOne]; the first component is the variable
    [result] it writes to. *)
Definition GetOne_seek (sec : option bytes) (bucket key : string) (tx : Disk)
    : bytes * option error :=
  let result : bytes := [] in
  let prefixKey := key in
  match Tx_Bucket bucket tx with
  | None => (result, Some ErrBucketNotFound)
  | Some bkt =>
    match Cursor_Seek prefixKey bkt with
    | [] => (result, None)
    | (k, v) :: _ =>
      let content := v in
      if HasPrefix k prefixKey then
        match sec with
        | Some s =>
          match Decrypt content s with
          | Err err => (result, Some (ErrDecrypt err))
          | Ok dec => (dec, None)
          end
        | None => (content, None)
        end
      else (result, None)
    end
  end.

(** locknut.go, [GetOne]. *)
Definition GetOne (bl : BoltLocknut) (w : World) (bucket key : string)
    : exit (result bytes) * BoltLocknut * World :=
  scoped bl w (fun err => Err err)
    (fun bl w =>
       if String.eqb key EmptyString then (Return (Err ErrKeyInvalid), w)
       else
         match view (GetOne_seek (secret bl) bucket key) w with
         | (_, Some err) => (Return (Err err), w)
         | (result, None) => (Return (Ok result), w)
         end).

(** The closure [save] of [Save]. *)
Definition Save_save (sec : option bytes) (bucket key : string) (data : value)
    (tx : Disk) (rnd : bytes) : wexit * bytes :=
  let bkt := Tx_Bucket bucket tx in
  match json_Marshal data with
  | Err err => (WErr err, rnd)
  | Ok v =>
    match sec with
    | Some s =>
      match Encrypt v s rnd with
      | (Err err, rnd') => (WErr (ErrEncrypt err), rnd')
      | (Ok enc, rnd') => (Bucket_Put bkt bucket key enc tx, rnd')
      end
    | None => (Bucket_Put bkt bucket key v tx, rnd)
    end
  end.

(** locknut.go, [Save]; [data] is [None] for a nil interface value. *)
Definition Save (bl : BoltLocknut) (w : World) (bucket key : string)
    (data : option value) : exit (option error) * BoltLocknut * World :=
  scoped bl w Some
    (fun bl w =>
       match data with
       | None => (Return (Some ErrDataNil), w)
       | Some d => update (Save_save (secret bl) bucket key d) w
       end).

(** The closure [save] of [SaveBytes]. *)
Definition SaveBytes_save (sec : option bytes) (bucket key : string)
    (data : bytes) (tx : Disk) (rnd : bytes) : wexit * bytes :=
  let bkt := Tx_Bucket bucket tx in
  match sec with
  | Some s =>
    match Encrypt data s rnd with
    | (Err err, rnd') => (WErr (ErrEncrypt err), rnd')
    | (Ok enc, rnd') => (Bucket_Put bkt bucket key enc tx, rnd')
    end
  | None => (Bucket_Put bkt bucket key data tx, rnd)
  end.

(** locknut.go, [SaveBytes]; [data] is [None] for a nil slice. *)
Definition SaveBytes (bl : BoltLocknut) (w : World) (bucket key : string)
    (data : option bytes) : exit (option error) * BoltLocknut * World :=
  scoped bl w Some
    (fun bl w =>
       match data with
       | None => (Return (Some ErrDataNil), w)
       | Some d => update (SaveBytes_save (secret bl) bucket key d) w
       end).

(** The closure [delete] of [Delete]. *)
Definition Delete_delete (bucket key : string) (tx : Disk) (rnd : bytes)
    : wexit * bytes :=
  let bkt := Tx_Bucket bucket tx in
  (Bucket_Delete bkt bucket key tx, rnd).

(** locknut.go, [Delete]. *)
Definition Delete (bl : BoltLocknut) (w : World) (bucket key : string)
    : exit (option error) * BoltLocknut * World :=
  scoped bl w Some
    (fun bl w =>
       if String.eqb key EmptyString then (Return (Some ErrDeleteKeyNil), w)
       else update (Delete_delete bucket key) w).

(** locknut.go, [NewBoltLocknut]; [os_Stat] is what [os.Stat] finds. *)
Definition NewBoltLocknut (os_Stat : string -> option FileMode)
    (name path : string) (secret : option bytes) (batchMode : bool)
    (buckets : list string) (w : World)
    : exit (result BoltLocknut) * World :=
  if negb (String.eqb path EmptyString)
     && negb (match os_Stat path with Some ModeDir => true | _ => false end)
  then (Return (Err ErrPathInvalid), w)
  else
    let fullPath := filepath_Join path name in
    if match os_Stat fullPath with
       | Some ModeRegular => false
       | Some _ => true
       | None => false
       end
    then (Return (Err ErrFileNameInvalid), w)
    else
      let bl := {| name := name; path := path; fullPath := fullPath;
                   secret := None; buckets := buckets;
                   batchMode := batchMode; db := None |} in
      let bl := SetSecret bl secret in
      match openDB bl w with
      | (Panic, _, w1) => (Panic, w1)
      | (Return (Some err), _, w1) => (Return (Err err), w1)
      | (Return None, bl1, w1) =>
        let '(bl2, w2) := closeDB bl1 w1 in
        (Return (Ok bl2), w2)
      end.

(** A call a client makes on a handle. *)
Inductive Call : Type :=
| CallGetOne (bucket key : string)
| CallGetByPrefix (bucket prefix : string)
| CallGetKeyList (bucket prefix : string)
| CallSave (bucket key : string) (data : option value)
| CallSaveBytes (bucket key : string) (data : option bytes)
| CallDelete (bucket key : string)
| CallSetSecret (secret0 : option bytes)
| CallSetBatchMode (mode : bool).

(** The six operations on the store, as opposed to the two setters. *)
Definition is_operation (c : Call) : bool :=
  match c with
  | CallSetSecret _ | CallSetBatchMode _ => false
  | _ => true
  end.

(** The handle and the world after a call, whatever it returned. *)
Definition exec (c : Call) (bl : BoltLocknut) (w : World) : BoltLocknut * World :=
  match c with
  | CallGetOne bucket key =>
    let '(_, bl', w') := GetOne bl w bucket key in (bl', w')
  | CallGetByPrefix bucket prefix =>
    let '(_, bl', w') := GetByPrefix bl w bucket prefix in (bl', w')
  | CallGetKeyList bucket prefix =>
    let '(_, bl', w') := GetKeyList bl w bucket prefix in (bl', w')
  | CallSave bucket key data =>
    let '(_, bl', w') := Save bl w bucket key data in (bl', w')
  | CallSaveBytes bucket key data =>
    let '(_, bl', w') := SaveBytes bl w bucket key data in (bl', w')
  | CallDelete bucket key =>
    let '(_, bl', w') := Delete bl w bucket key in (bl', w')
  | CallSetSecret secret0 => (SetSecret bl secret0, w)
  | CallSetBatchMode mode => SetBatchMode bl w mode
  end.

(** A sequence of calls, one after the other. *)
Fixpoint run (cs : list Call) (bl : BoltLocknut) (w : World) : BoltLocknut * World :=
  match cs with
  | [] => (bl, w)
  | c :: rest => let '(bl', w') := exec c bl w in run rest bl' w'
  end.

End Locknut.

(** ** Predicates of the properties *)

(** What [openDB]'s bucket creation does to the file: the buckets that were
    there keep their records, and a bucket that appears is empty. *)
Definition disk_extends (d d' : Disk) : Prop :=
  forall b : string,
    (forall bk, d !! b = Some bk -> d' !! b = Some bk) /\
    (forall bk, d' !! b = Some bk -> d !! b = Some bk \/ bk = []).

(** Between operations a handle that is not in batch mode holds no
    connection. *)
Definition lifecycle_inv (bl : BoltLocknut) : Prop :=
  batchMode bl = false -> db bl = None.

(** A body that neither opens nor closes connections. *)
Definition conn_neutral {A : Type} (body : BoltLocknut -> World -> exit A * World) : Prop :=
  forall bl w, opened (snd (body bl w)) = opened w /\ closed (snd (body bl w)) = closed w.

(** Every record in the file has a key that is not empty. *)
Definition keys_nonempty (d : Disk) : Prop :=
  forall (bn : string) (b : Bucket) (k : string) (v : bytes),
    d !! bn = Some b -> In (k, v) b -> k <> EmptyString.

(** A record the scan has been through: its key, the stored value and the
    plaintext the value decrypts to. *)
Record scanned : Type := { s_key : string; s_value : bytes; s_plain : bytes }.

Definition record_of (g : scanned) : string * bytes := (s_key g, s_value g).

(** The map [results] after the scan went through the records [good]. *)
Definition collect (m : gmap string bytes) (good : list scanned) : gmap string bytes :=
  foldl (fun m g => <[s_key g := s_plain g]> m) m good.

Section Outcomes.
Context `{E : Extern}.

(** Every way [openDB] can end. *)
Inductive openDB_outcome (bl : BoltLocknut) (w : World)
  : exit (option error) -> BoltLocknut -> World -> Prop :=
| open_kept :
    batchMode bl = true -> db bl <> None ->
    openDB_outcome bl w (Return None) bl w
| open_refused err rest :
    batchMode bl && negb (isNil (db bl)) = false ->
    open_results w = Some err :: rest ->
    openDB_outcome bl w (Return (Some err)) bl
      {| disk := disk w; rand_Reader := rand_Reader w; open_results := rest;
         opened := opened w; closed := closed w |}
| open_init_failed err w1 :
    batchMode bl && negb (isNil (db bl)) = false ->
    disk w1 = disk w -> rand_Reader w1 = rand_Reader w ->
    opened w1 = S (opened w) -> closed w1 = S (closed w) ->
    initbuckets (buckets bl) (disk w) = Err err ->
    openDB_outcome bl w (Return (Some err)) bl w1
| open_fresh w1 :
    batchMode bl && negb (isNil (db bl)) = false ->
    initbuckets (buckets bl) (disk w) = Ok (disk w1) ->
    rand_Reader w1 = rand_Reader w ->
    opened w1 = S (opened w) -> closed w1 = closed w ->
    openDB_outcome bl w (Return None)
      (set_db (Some {| conn_id := S (opened w) |}) bl) w1.

(** The shape [Save] and [SaveBytes] share: the frame, the nil check, and
    one write transaction. *)
Definition write_op {D : Type} (fn : BoltLocknut -> D -> Disk -> bytes -> wexit * bytes)
    (bl : BoltLocknut) (w : World) (data : option D)
    : exit (option error) * BoltLocknut * World :=
  scoped bl w Some
    (fun bl w =>
       match data with
       | None => (Return (Some ErrDataNil), w)
       | Some d => update (fn bl d) w
       end).

(** Every way a write operation can end, and the file it leaves. *)
Inductive write_outcome {D : Type}
    (fn : BoltLocknut -> D -> Disk -> bytes -> wexit * bytes)
    (bl : BoltLocknut) (w : World) (data : option D)
  : exit (option error) -> World -> Prop :=
| write_not_opened err w' :
    disk w' = disk w ->
    write_outcome fn bl w data (Return (Some err)) w'
| write_nil bl1 w1 w' :
    openDB bl w = (Return None, bl1, w1) -> data = None ->
    disk w' = disk w1 ->
    write_outcome fn bl w data (Return (Some ErrDataNil)) w'
| write_committed bl1 w1 w' d tx' rnd' :
    openDB bl w = (Return None, bl1, w1) -> data = Some d ->
    fn bl1 d (disk w1) (rand_Reader w1) = (WOk tx', rnd') ->
    disk w' = tx' ->
    write_outcome fn bl w data (Return None) w'
| write_rolled_back bl1 w1 w' d err rnd' :
    openDB bl w = (Return None, bl1, w1) -> data = Some d ->
    fn bl1 d (disk w1) (rand_Reader w1) = (WErr err, rnd') ->
    disk w' = disk w1 ->
    write_outcome fn bl w data (Return (Some err)) w'
| write_panicked bl1 w1 w' d rnd' :
    openDB bl w = (Return None, bl1, w1) -> data = Some d ->
    fn bl1 d (disk w1) (rand_Reader w1) = (WPanic, rnd') ->
    disk w' = disk w1 ->
    write_outcome fn bl w data Panic w'.

End Outcomes.


(** ** A small instance of the libraries, to run the operations

    Values are byte strings that marshal to themselves, the digest is the
    message cut or padded to 32 bytes, and the AEAD appends a 16-byte tag
    made of the nonce and the key and checks it on opening. *)

Definition pad_to (n : nat) (b : bytes) : bytes := firstn n (b ++ repeat x00 n).

Fixpoint bytes_eqb (a b : bytes) : bool :=
  match a, b with
  | [], [] => true
  | x :: a', y :: b' => Byte.eqb x y && bytes_eqb a' b'
  | _, _ => false
  end.

Definition sim_tag (key nonce : bytes) : bytes := pad_to 16 (nonce ++ key).

Definition sim_seal (key nonce plain : bytes) : bytes := plain ++ sim_tag key nonce.

Definition sim_open (key nonce ct : bytes) : option bytes :=
  if length ct <? 16 then None
  else
    let n := length ct - 16 in
    if bytes_eqb (skipn n ct) (sim_tag key nonce) then Some (firstn n ct) else None.

#[local] Instance SimExtern : Extern := {|
  value := bytes;
  json_Marshal := fun v => Ok v;
  sha256_Sum256 := pad_to 32;
  gcm_seal := sim_seal;
  gcm_open := sim_open
|}.

(** Concrete data for the examples. *)
Definition key32 : bytes := repeat x2a 32.
Definition secret33 : bytes := repeat x2a 33.
Definition tape (b : byte) (n : nat) : bytes := repeat b n.
Definition str_bytes (s : string) : bytes := list_byte_of_string s.

Definition world0 (d : Disk) (rnd : bytes) : World :=
  {| disk := d; rand_Reader := rnd; open_results := []; opened := 0; closed := 0 |}.

Definition handle0 (sec : option bytes) (batch : bool) (bs : list string) : BoltLocknut :=
  {| name := "test.db"; path := "."; fullPath := "test.db"; secret := sec;
     buckets := bs; batchMode := batch; db := None |}.

(** The store of the example program: three records in the bucket "pii",
    each value a payload under [key32]. *)
Definition sim_payload (plain : bytes) : bytes :=
  tape x01 12 ++ sim_seal key32 (tape x01 12) plain.

Definition pii_bucket : Bucket :=
  [("asdfasdf"%string, sim_payload (str_bytes "A"));
   ("taylor"%string, sim_payload (str_bytes "T"));
   ("test"%string, sim_payload (str_bytes "E"))].

Definition pii_world : World := world0 {[ "pii"%string := pii_bucket ]} [].

Definition pii_handle : BoltLocknut :=
  handle0 (Some key32) false ["pii"%string; "jids"%string].

(** The store of the example program with the value under "test" cut to
    three bytes. *)
Definition damaged_bucket : Bucket :=
  [("asdfasdf"%string, sim_payload (str_bytes "A"));
   ("taylor"%string, sim_payload (str_bytes "T"));
   ("test"%string, [x01; x02; x03])].

Definition damaged_world : World := world0 {[ "pii"%string := damaged_bucket ]} [].

(** One save out of batch mode, and the benchmark's save, read and delete on
    a handle in batch mode whose connection is open. *)
Definition article_calls : list (@Call SimExtern) :=
  [@CallSave SimExtern "article" "ID-0001" (Some (str_bytes "{}"));
   CallGetOne "article" "ID-0001";
   CallDelete "article" "ID-0001"].

Definition batch_handle : BoltLocknut :=
  set_db (Some (Build_boltDB 1)) (handle0 (Some key32) true ["article"%string]).

Definition save_call : @Call SimExtern :=
  @CallSave SimExtern "article" "ID-0001" (Some (str_bytes "{}")).

Definition article_world : World :=
  world0 {[ "article"%string := [] ]} (tape x01 12).

Definition conn1 : boltDB := {| conn_id := 1 |}.

(** A store whose only record, under "xyz", holds the payload of the empty
    byte sequence. *)
Definition empty_value_world : World :=
  world0 {[ "pii"%string := [("xyz"%string, sim_payload [])] ]} [].

(** The handle the constructor returns for the example program's call, on a
    machine where "." is a directory and "./test.db" does not exist yet. *)
Definition example_stat (p : string) : option FileMode :=
  if String.eqb p "." then Some ModeDir else None.

Definition example_new : exit (result BoltLocknut) * World :=
  NewBoltLocknut example_stat "test.db" "." (Some key32) false
    ["pii"%string; "jids"%string] (world0 ∅ []).

Definition example_handle : BoltLocknut :=
  match example_new with
  | (Return (Ok bl), _) => bl
  | _ => pii_handle
  end.

(** The example program: three saves into "pii" on the handle the
    constructor returned, with 36 random bytes to draw the nonces from. *)
Definition example_saves : list (@Call SimExtern) :=
  [@CallSave SimExtern "pii" "taylor" (Some (str_bytes "T"));
   @CallSave SimExtern "pii" "test" (Some (str_bytes "E"));
   @CallSave SimExtern "pii" "asdfasdf" (Some (str_bytes "A"))].

Definition example_saved : BoltLocknut * World :=
  run example_saves example_handle (set_rand (tape x01 36) (snd example_new)).

(** ** aes.go: the [Cryptor] object *)

(** aes.go, [Cryptor]. *)
Record Cryptor : Type := { plain : bytes; Cipher : bytes }.

(** aes.go, [NewCryptor]. *)
Definition NewCryptor (plain0 : bytes) : Cryptor :=
  {| plain := plain0; Cipher := [] |}.

Section CryptorObject.
Context `{E : Extern}.

(** aes.go, method [Encrypt] of [Cryptor]: the error returned, the object
    after the call and what is left of the random tape. *)
Definition Cryptor_Encrypt (c : Cryptor) (key rnd : bytes)
    : option error * Cryptor * bytes :=
  match aes_NewCipher key with
  | Err err => (Some err, c, rnd)
  | Ok a =>
    match cipher_NewGCM a with
    | Err err => (Some err, c, rnd)
    | Ok gcm =>
      match io_ReadFull rnd (NonceSize gcm) with
      | (Err err, rnd') => (Some err, c, rnd')
      | (Ok nonce, rnd') =>
        (None, {| plain := plain c; Cipher := Seal gcm nonce nonce (plain c) |}, rnd')
      end
    end
  end.

(** aes.go, method [EncryptWithNewKey] of [Cryptor]: what [c.Encrypt(key)]
    returns is not looked at. *)
Definition Cryptor_EncryptWithNewKey (c : Cryptor) (rnd : bytes)
    : result bytes * Cryptor * bytes :=
  match GetRandKey rnd with
  | (Err err, rnd1) => (Err err, c, rnd1)
  | (Ok key, rnd1) =>
    let '(_, c', rnd2) := Cryptor_Encrypt c key rnd1 in
    (Ok key, c', rnd2)
  end.

(** aes.go, method [Decrypt] of [Cryptor]: [c.plain, err = gcm.Open(...)]
    assigns whatever [Open] returned, which is nil when the tag does not
    verify. *)
Definition Cryptor_Decrypt (c : Cryptor) (key : bytes) : result bytes * Cryptor :=
  match aes_NewCipher key with
  | Err err => (Err err, c)
  | Ok a =>
    match cipher_NewGCM a with
    | Err err => (Err err, c)
    | Ok gcm =>
      let nonceSize := NonceSize gcm in
      if length (Cipher c) <? nonceSize
      then (Err ErrCiphertextTooShort, c)
      else
        let nonce := firstn nonceSize (Cipher c) in
        let ciphertext := skipn nonceSize (Cipher c) in
        match Open gcm nonce ciphertext with
        | Ok p => (Ok p, {| plain := p; Cipher := Cipher c |})
        | Err err => (Err err, {| plain := []; Cipher := Cipher c |})
        end
    end
  end.

End CryptorObject.

(** ** The order of the records in a bucket *)

(** The key of the first record is below the key of the second. *)
Definition key_lt (a b : string * bytes) : Prop :=
  String.ltb (fst a) (fst b) = true.

(** The keys of a bucket ascend strictly: in particular no key occurs
    twice. *)
Definition bucket_sorted (b : Bucket) : Prop := StronglySorted key_lt b.

Definition disk_sorted (d : Disk) : Prop :=
  forall (bn : string) (b : Bucket), d !! bn = Some b -> bucket_sorted b.

(** The record has the prefix in its key. *)
Definition under (prefix : string) (kv : string * bytes) : bool :=
  HasPrefix (fst kv) prefix.

(** The key lengths [aes.NewCipher] accepts. *)
Definition aes_key_size (key : bytes) : bool :=
  (length key =? 16) || (length key =? 24) || (length key =? 32).

(** A random tape of 44 bytes: 32 for a key and 12 for a nonce. *)
Definition tape44 : bytes := tape x05 32 ++ tape x09 12.

(** A property of the file that the three ways the package changes it keep:
    the creation of empty buckets, a put under a key that is not empty, and
    a removal. *)
Definition store_invariant (I : Disk -> Prop) : Prop :=
  (forall d d', disk_extends d d' -> I d -> I d') /\
  (forall (tx : Disk) bucket key v b,
      tx !! bucket = Some b -> key <> EmptyString -> I tx ->
      I (<[bucket := bucket_put key v b]> tx)) /\
  (forall (tx : Disk) bucket key b,
      tx !! bucket = Some b -> I tx -> I (<[bucket := bucket_delete key b]> tx)).

(** Saving over the record under "taylor", and the two records of the
    example store under the prefix "t" with their plaintexts. *)
Definition resaved : exit (option error) * BoltLocknut * World :=
  SaveBytes pii_handle (set_rand (tape x03 12) pii_world) "pii" "taylor"
    (Some (str_bytes "new")).

Definition resaved_json : exit (option error) * BoltLocknut * World :=
  Save pii_handle (set_rand (tape x03 12) pii_world) "pii" "taylor"
    (Some (str_bytes "{}")).

Definition pii_under_t : list scanned :=
  [{| s_key := "taylor"; s_value := sim_payload (str_bytes "T");
      s_plain := str_bytes "T" |};
   {| s_key := "test"; s_value := sim_payload (str_bytes "E");
      s_plain := str_bytes "E" |}].

(** The handle and the world after [openDB] on the example store. *)
Definition pii_opened : BoltLocknut := snd (fst (openDB pii_handle pii_world)).
Definition pii_opened_world : World := snd (openDB pii_handle pii_world).

(** * Properties *)

(** ** aes.go *)

Section CryptorFacts.
Context `{E : Extern}.

Lemma aes_NewCipher_32 (key : bytes) :
  length key = 32 ->
  aes_NewCipher key = Ok {| block_key := key; BlockSize := 16 |}.
Proof. intros H. unfold aes_NewCipher. rewrite H. reflexivity. Qed.

Lemma aes_NewCipher_long (key : bytes) :
  32 < length key -> aes_NewCipher key = Err (KeySizeError (length key)).
Proof.
  intros H. unfold aes_NewCipher.
  destruct (Nat.eqb_spec (length key) 16); [lia|].
  destruct (Nat.eqb_spec (length key) 24); [lia|].
  destruct (Nat.eqb_spec (length key) 32); [lia|].
  reflexivity.
Qed.

Lemma io_ReadFull_ok (rnd : bytes) (n : nat) :
  n <= length rnd -> io_ReadFull rnd n = (Ok (firstn n rnd), skipn n rnd).
Proof.
  intros H. unfold io_ReadFull.
  destruct (Nat.leb_spec n (length rnd)); [reflexivity | lia].
Qed.

Lemma io_ReadFull_inv (rnd : bytes) (n : nat) (b r : bytes) :
  io_ReadFull rnd n = (Ok b, r) ->
  n <= length rnd /\ b = firstn n rnd /\ r = skipn n rnd /\ length b = n.
Proof.
  unfold io_ReadFull.
  destruct (Nat.leb_spec n (length rnd)) as [Hle|Hgt];
    [|destruct (length rnd =? 0); discriminate].
  intros [= <- <-]. repeat split; try assumption.
  rewrite length_firstn. lia.
Qed.

(** With a 32-byte key [Encrypt] fails only when the random source does,
    and its payload is the nonce it read followed by the sealed text. *)
Lemma Encrypt_32 (plain key rnd : bytes) :
  length key = 32 ->
  Encrypt plain key rnd =
    match io_ReadFull rnd 12 with
    | (Err err, rnd') => (Err err, rnd')
    | (Ok nonce, rnd') => (Ok (nonce ++ gcm_seal key nonce plain), rnd')
    end.
Proof.
  intros H. unfold Encrypt. rewrite (aes_NewCipher_32 key H). reflexivity.
Qed.

Lemma Encrypt_32_inv (plain key rnd payload rnd' : bytes) :
  length key = 32 ->
  Encrypt plain key rnd = (Ok payload, rnd') ->
  12 <= length rnd /\
  payload = firstn 12 rnd ++ gcm_seal key (firstn 12 rnd) plain /\
  rnd' = skipn 12 rnd.
Proof.
  intros Hk. rewrite (Encrypt_32 _ _ _ Hk).
  destruct (io_ReadFull rnd 12) as [[nonce|err] r] eqn:Hr; [|discriminate].
  intros [= <- <-].
  apply io_ReadFull_inv in Hr as (Hle & -> & -> & _). auto.
Qed.

Lemma Decrypt_32 (nonce ct key : bytes) :
  length key = 32 -> length nonce = 12 ->
  Decrypt (nonce ++ ct) key =
    match gcm_open key nonce ct with
    | Some plain => Ok plain
    | None => Err ErrGCMOpen
    end.
Proof.
  intros Hk Hn. unfold Decrypt. rewrite (aes_NewCipher_32 key Hk).
  cbn [cipher_NewGCM BlockSize Nat.eqb NonceSize block_key].
  destruct (Nat.ltb_spec (length (nonce ++ ct)) 12) as [Hlt|Hge].
  { rewrite length_app in Hlt. lia. }
  unfold Open. cbn [aead_key].
  rewrite <- Hn at 1. rewrite firstn_app, Nat.sub_diag, firstn_all. cbn [firstn].
  rewrite app_nil_r.
  rewrite <- Hn. rewrite skipn_app, Nat.sub_diag, skipn_all. reflexivity.
Qed.

(** A payload shorter than the nonce is refused before the AEAD is asked. *)
Lemma Decrypt_too_short (ct key : bytes) :
  length key = 32 -> length ct < 12 -> Decrypt ct key = Err ErrCiphertextTooShort.
Proof.
  intros Hk Hs. unfold Decrypt. rewrite (aes_NewCipher_32 key Hk).
  cbn [cipher_NewGCM BlockSize Nat.eqb NonceSize].
  destruct (Nat.ltb_spec (length ct) 12); [reflexivity | lia].
Qed.

(** With a key of more than 32 bytes neither direction gets past
    [aes.NewCipher]. *)
Lemma Encrypt_long_key (plain key rnd : bytes) :
  32 < length key -> Encrypt plain key rnd = (Err (KeySizeError (length key)), rnd).
Proof. intros H. unfold Encrypt. rewrite (aes_NewCipher_long key H). reflexivity. Qed.

Lemma Decrypt_long_key (ct key : bytes) :
  32 < length key -> Decrypt ct key = Err (KeySizeError (length key)).
Proof. intros H. unfold Decrypt. rewrite (aes_NewCipher_long key H). reflexivity. Qed.

End CryptorFacts.

(** The small instance obeys the laws. *)

Lemma bytes_eqb_refl (a : bytes) : bytes_eqb a a = true.
Proof.
  induction a as [|x a IH]; [reflexivity|].
  cbn. rewrite IH. destruct x; reflexivity.
Qed.

Lemma pad_to_length (n : nat) (b : bytes) : length (pad_to n b) = n.
Proof.
  unfold pad_to. rewrite length_firstn, length_app, repeat_length. lia.
Qed.

#[local] Instance SimExternLaws : ExternLaws SimExtern.
Proof.
  split.
  - intros m. apply pad_to_length.
  - intros key nonce plain _. cbn. unfold sim_open, sim_seal.
    assert (Ht : length (sim_tag key nonce) = 16) by apply pad_to_length.
    rewrite length_app, Ht.
    destruct (Nat.ltb_spec (length plain + 16) 16); [lia|].
    replace (length plain + 16 - 16) with (length plain) by lia.
    rewrite skipn_app, Nat.sub_diag, skipn_all. cbn [skipn app].
    rewrite bytes_eqb_refl.
    rewrite firstn_app, Nat.sub_diag, firstn_all. cbn [firstn].
    rewrite app_nil_r. reflexivity.
Qed.

Section RoundTrip.
Context `{L : ExternLaws}.

(** C1. For every plaintext [P] and every 32-byte key [K]: whatever payload
    [Encrypt P K] returns, [Decrypt] of it under [K] returns exactly [P];
    and [Encrypt] does return a payload whenever the random source delivers
    the 12 bytes of the nonce. *)
Theorem Decrypt_Encrypt (P K rnd : bytes) :
  length K = 32 ->
  (forall payload rnd', Encrypt P K rnd = (Ok payload, rnd') ->
                        Decrypt payload K = Ok P) /\
  (12 <= length rnd ->
   exists payload, Encrypt P K rnd = (Ok payload, skipn 12 rnd) /\
                   Decrypt payload K = Ok P).
Proof.
  intros HK.
  assert (Hrt : forall nonce, length nonce = 12 ->
            Decrypt (nonce ++ gcm_seal K nonce P) K = Ok P).
  { intros nonce Hn. rewrite (Decrypt_32 _ _ _ HK Hn).
    rewrite (gcm_open_seal K nonce P Hn). reflexivity. }
  split.
  - intros payload rnd' He.
    apply (Encrypt_32_inv _ _ _ _ _ HK) in He as (Hle & -> & _).
    apply Hrt. rewrite length_firstn. lia.
  - intros Hle. eexists. split.
    + rewrite (Encrypt_32 _ _ _ HK), (io_ReadFull_ok _ _ Hle). reflexivity.
    + apply Hrt. rewrite length_firstn. lia.
Qed.

End RoundTrip.

Lemma Decrypt_Encrypt_witness :
  length key32 = 32 /\
  exists payload,
    Encrypt (str_bytes "I like seafood.") key32 (tape x07 12) = (Ok payload, []) /\
    Decrypt payload key32 = Ok (str_bytes "I like seafood.").
Proof.
  split; [reflexivity|].
  destruct (Decrypt_Encrypt (str_bytes "I like seafood.") key32 (tape x07 12)
              eq_refl) as [_ H].
  apply H. vm_compute. lia.
Defined.

Section Nonce.
Context `{E : Extern}.

Lemma Encrypt_inv (plain key rnd payload rnd' : bytes) :
  Encrypt plain key rnd = (Ok payload, rnd') ->
  12 <= length rnd /\
  payload = firstn 12 rnd ++ gcm_seal key (firstn 12 rnd) plain /\
  rnd' = skipn 12 rnd.
Proof.
  unfold Encrypt, aes_NewCipher.
  destruct ((length key =? 16) || (length key =? 24) || (length key =? 32));
    [|discriminate].
  cbn [cipher_NewGCM BlockSize Nat.eqb NonceSize block_key].
  destruct (io_ReadFull rnd 12) as [[nonce|err] r] eqn:Hr; [|discriminate].
  intros [= <- <-].
  apply io_ReadFull_inv in Hr as (Hle & -> & -> & _). auto.
Qed.

(** C8. Every successful [Encrypt] reads its nonce from the random source in
    that call: 12 bytes (the AEAD's nonce size), put in front of the sealed
    text, and the source moves on by those 12 bytes, so that the next call
    reads the following ones.  Hence for the same plaintext and key, two runs
    whose nonces differ return different payloads. *)
Theorem Encrypt_fresh_nonce (P K rnd1 rnd2 c1 c2 r1 r2 : bytes) :
  Encrypt P K rnd1 = (Ok c1, r1) ->
  Encrypt P K rnd2 = (Ok c2, r2) ->
  (length (firstn 12 rnd1) = 12 /\
   c1 = firstn 12 rnd1 ++ gcm_seal K (firstn 12 rnd1) P /\
   r1 = skipn 12 rnd1) /\
  (forall c3 r3, Encrypt P K r1 = (Ok c3, r3) ->
                 firstn 12 c3 = firstn 12 (skipn 12 rnd1)) /\
  (firstn 12 rnd1 <> firstn 12 rnd2 -> c1 <> c2).
Proof.
  intros H1 H2.
  apply Encrypt_inv in H1 as (Hl1 & -> & ->).
  apply Encrypt_inv in H2 as (Hl2 & -> & ->).
  assert (Hn : forall r : bytes, 12 <= length r -> length (firstn 12 r) = 12).
  { intros r Hr. rewrite length_firstn. lia. }
  repeat split.
  - apply Hn, Hl1.
  - intros c3 r3 H3. apply Encrypt_inv in H3 as (Hl3 & -> & _).
    rewrite <- (Hn _ Hl3) at 1.
    rewrite firstn_app, Nat.sub_diag, firstn_all. cbn [firstn].
    apply app_nil_r.
  - intros Hne Heq. apply Hne.
    apply (f_equal (firstn 12)) in Heq.
    rewrite <- (Hn _ Hl1) in Heq at 1.
    rewrite firstn_app, Nat.sub_diag, firstn_all in Heq. cbn [firstn] in Heq.
    rewrite app_nil_r in Heq. rewrite Heq.
    rewrite <- (Hn _ Hl2) at 1.
    rewrite firstn_app, Nat.sub_diag, firstn_all. cbn [firstn].
    apply app_nil_r.
Qed.

End Nonce.

Lemma Encrypt_fresh_nonce_witness :
  exists c1 c2 : bytes,
    Encrypt (str_bytes "seafood") key32 (tape x01 24) = (Ok c1, tape x01 12) /\
    Encrypt (str_bytes "seafood") key32 (tape x02 24) = (Ok c2, tape x02 12) /\
    c1 <> c2.
Proof.
  eexists. eexists.
  split; [vm_compute; reflexivity|].
  split; [vm_compute; reflexivity|].
  refine (proj2 (proj2 (Encrypt_fresh_nonce (str_bytes "seafood") key32
            (tape x01 24) (tape x02 24) _ _ (tape x01 12) (tape x02 12) _ _)) _).
  - vm_compute. reflexivity.
  - vm_compute. reflexivity.
  - vm_compute. discriminate.
Defined.

(** ** locknut.go: the secret *)

Section Secret.
Context `{E : Extern}.

Lemma SetSecret_short (bl : BoltLocknut) (secret0 : option bytes) :
  len secret0 < 32 ->
  secret (SetSecret bl secret0) = Some (sha256_Sum256 (contents secret0)).
Proof.
  intros H. unfold SetSecret.
  destruct (Nat.ltb_spec (len secret0) 32); [reflexivity | lia].
Qed.

Lemma SetSecret_long (bl : BoltLocknut) (secret0 : option bytes) :
  32 <= len secret0 ->
  secret (SetSecret bl secret0) = secret0 /\ secret0 = Some (contents secret0).
Proof.
  intros H. unfold SetSecret.
  destruct (Nat.ltb_spec (len secret0) 32); [lia|].
  split; [reflexivity|].
  destruct secret0; [reflexivity | cbn in H; lia].
Qed.

(** [SetSecret] touches the secret and nothing else. *)
Lemma SetSecret_frame (bl : BoltLocknut) (secret0 : option bytes) :
  batchMode (SetSecret bl secret0) = batchMode bl /\
  db (SetSecret bl secret0) = db bl /\
  buckets (SetSecret bl secret0) = buckets bl.
Proof. unfold SetSecret. destruct (len secret0 <? 32); auto. Qed.

(** The key after [SetSecret], by the length of the secret given.  A secret
    shorter than 32 bytes (a nil or empty one included) is replaced by its
    SHA-256 digest.  Whenever the secret given has at most 32 bytes, the key
    the handle then holds has exactly 32 bytes and the cipher accepts it:
    [aes.NewCipher] and [cipher.NewGCM] succeed on it, in [Encrypt] and in
    [Decrypt].  A secret of more than 32 bytes is not brought to 32 bytes:
    the handle holds it whole, and [Encrypt] and [Decrypt] fail on it at
    [aes.NewCipher], whatever the data. *)
Lemma SetSecret_effective_key `{L : !ExternLaws E} (bl : BoltLocknut)
    (secret0 : option bytes) :
  (len secret0 < 32 ->
   secret (SetSecret bl secret0) = Some (sha256_Sum256 (contents secret0))) /\
  (len secret0 <= 32 ->
   exists k, secret (SetSecret bl secret0) = Some k /\ length k = 32 /\
             exists c gcm, aes_NewCipher k = Ok c /\ cipher_NewGCM c = Ok gcm /\
                           aead_key gcm = k /\ NonceSize gcm = 12) /\
  (32 < len secret0 ->
   exists k, secret (SetSecret bl secret0) = Some k /\ length k = len secret0 /\
             (forall p rnd, Encrypt p k rnd = (Err (KeySizeError (length k)), rnd)) /\
             (forall ct, Decrypt ct k = Err (KeySizeError (length k)))).
Proof.
  split; [apply SetSecret_short|]. split; cycle 1.
  { intros Hgt.
    destruct (SetSecret_long bl secret0 (Nat.lt_le_incl _ _ Hgt)) as [Hs Hc].
    exists (contents secret0). rewrite Hs.
    assert (Hl : length (contents secret0) = len secret0).
    { destruct secret0; reflexivity. }
    split; [exact Hc|]. split; [exact Hl|].
    split; intros; [apply Encrypt_long_key | apply Decrypt_long_key]; lia. }
  intros Hle.
  assert (Hk : exists k, secret (SetSecret bl secret0) = Some k /\ length k = 32).
  { destruct (Nat.lt_ge_cases (len secret0) 32) as [Hlt|Hge].
    - exists (sha256_Sum256 (contents secret0)).
      rewrite (SetSecret_short bl secret0 Hlt). split; [reflexivity | apply sha256_Size].
    - destruct (SetSecret_long bl secret0 Hge) as [Hs Hc].
      exists (contents secret0). rewrite Hs. split; [exact Hc|].
      destruct secret0; cbn in *; lia. }
  destruct Hk as (k & Hs & Hl). exists k. split; [exact Hs|]. split; [exact Hl|].
  exists {| block_key := k; BlockSize := 16 |}, {| aead_key := k; NonceSize := 12 |}.
  rewrite (aes_NewCipher_32 k Hl). auto.
Qed.

End Secret.

Lemma SetSecret_effective_key_witness :
  exists k, secret (SetSecret (handle0 None false ["article"%string])
                      (Some (str_bytes "secret"))) = Some k /\
            length k = 32 /\
            exists c gcm, aes_NewCipher k = Ok c /\ cipher_NewGCM c = Ok gcm /\
                          aead_key gcm = k /\ NonceSize gcm = 12.
Proof.
  refine (proj1 (proj2 (SetSecret_effective_key
            (handle0 None false ["article"%string]) (Some (str_bytes "secret")))) _).
  vm_compute. lia.
Defined.

(** C2 (the code departs from the claim).  [SetSecret] brings a short secret
    to 32 bytes and misses the long one: given a secret of 33 bytes, the key
    the handle holds is that secret, of 33 bytes and not 32;
    [aes.NewCipher] refuses it in [Encrypt] and in [Decrypt]; and [SaveBytes]
    and [GetOne] on an existing bucket return that failure of the key-setup
    step instead of storing or returning the value. *)
Theorem SetSecret_33_bytes_unusable :
  secret (SetSecret (handle0 None false ["article"%string]) (Some secret33))
  = Some secret33 /\
  length secret33 = 33 /\
  Encrypt (str_bytes "T") secret33 (tape x01 12) = (Err (KeySizeError 33), tape x01 12) /\
  Decrypt (sim_payload (str_bytes "T")) secret33 = Err (KeySizeError 33) /\
  fst (fst (SaveBytes (SetSecret (handle0 None false ["article"%string]) (Some secret33))
              (world0 ∅ (tape x01 12)) "article" "ID-0001" (Some (str_bytes "T"))))
  = Return (Some (ErrEncrypt (KeySizeError 33))) /\
  fst (fst (GetOne (SetSecret (handle0 None false ["article"%string]) (Some secret33))
              (world0 {[ "article"%string := [("ID-0001"%string, sim_payload (str_bytes "T"))] ]} [])
              "article" "ID-0001"))
  = Return (Err (ErrDecrypt (KeySizeError 33))).
Proof.
  split; [vm_compute; reflexivity|].
  split; [reflexivity|].
  split; [vm_compute; reflexivity|].
  split; [vm_compute; reflexivity|].
  split; vm_compute; reflexivity.
Qed.

(** ** locknut.go: opening and closing the connection *)

Section Connection.
Context `{E : Extern}.

Lemma disk_extends_refl (d : Disk) : disk_extends d d.
Proof. intros b. split; auto. Qed.

Lemma disk_extends_trans (d1 d2 d3 : Disk) :
  disk_extends d1 d2 -> disk_extends d2 d3 -> disk_extends d1 d3.
Proof.
  intros H12 H23 b. destruct (H12 b) as [Ha Hb], (H23 b) as [Hc Hd]. split.
  - intros bk Hbk. auto.
  - intros bk Hbk. destruct (Hd bk Hbk) as [H|H]; auto.
Qed.

Lemma CreateBucketIfNotExists_extends (bname : string) (tx tx' : Disk) :
  CreateBucketIfNotExists bname tx = Ok tx' -> disk_extends tx tx'.
Proof.
  unfold CreateBucketIfNotExists.
  destruct (String.length bname =? 0); [discriminate|].
  destruct (tx !! bname) as [bk0|] eqn:Hl; intros [= <-].
  - apply disk_extends_refl.
  - intros b. destruct (decide (bname = b)) as [<-|Hne].
    + rewrite lookup_insert_eq. split.
      * intros bk Hbk. congruence.
      * intros bk Hbk. rewrite lookup_insert_eq in Hbk. right. congruence.
    + split; intros bk Hbk.
      * rewrite lookup_insert_ne by assumption. exact Hbk.
      * rewrite lookup_insert_ne in Hbk by assumption. left. exact Hbk.
Qed.

Lemma initbuckets_extends (names : list string) (tx tx' : Disk) :
  initbuckets names tx = Ok tx' -> disk_extends tx tx'.
Proof.
  revert tx. induction names as [|bname rest IH]; intros tx; cbn [initbuckets].
  - intros [= <-]. apply disk_extends_refl.
  - destruct (CreateBucketIfNotExists bname tx) as [tx1|err] eqn:Hc; [|discriminate].
    intros H. eapply disk_extends_trans.
    + eapply CreateBucketIfNotExists_extends, Hc.
    + apply IH, H.
Qed.

Lemma openDB_cases (bl : BoltLocknut) (w : World) :
  openDB_outcome bl w (fst (fst (openDB bl w))) (snd (fst (openDB bl w)))
    (snd (openDB bl w)).
Proof.
  unfold openDB.
  destruct (batchMode bl && negb (isNil (db bl))) eqn:Hb.
  { apply andb_true_iff in Hb as [Hb Hd]. cbn.
    apply open_kept; [assumption|]. destruct (db bl); [discriminate | discriminate]. }
  unfold bbolt_Open.
  destruct (open_results w) as [|[err|] rest] eqn:Ho.
  - unfold update, initbuckets_tx. cbn [disk rand_Reader].
    destruct (initbuckets (buckets bl) (disk w)) as [tx'|err] eqn:Hi; cbn.
    + apply open_fresh; cbn; auto.
    + apply open_init_failed with (err := err); cbn; auto.
  - cbn. eapply open_refused; eauto.
  - unfold update, initbuckets_tx. cbn [disk rand_Reader].
    destruct (initbuckets (buckets bl) (disk w)) as [tx'|err'] eqn:Hi; cbn.
    + apply open_fresh; cbn; auto.
    + apply open_init_failed with (err := err'); cbn; auto.
Qed.

Lemma openDB_inv (bl bl1 : BoltLocknut) (w w1 : World) (x : exit (option error)) :
  openDB bl w = (x, bl1, w1) -> openDB_outcome bl w x bl1 w1.
Proof. intros H. pose proof (openDB_cases bl w) as Hc. rewrite H in Hc. exact Hc. Qed.

(** A successful [openDB] leaves a connection in the handle, keeps the
    records of the buckets that were there, and does not touch the random
    source or the secret. *)
Lemma openDB_ok (bl bl1 : BoltLocknut) (w w1 : World) :
  openDB bl w = (Return None, bl1, w1) ->
  db bl1 <> None /\ secret bl1 = secret bl /\ batchMode bl1 = batchMode bl /\
  disk_extends (disk w) (disk w1) /\ rand_Reader w1 = rand_Reader w.
Proof.
  intros H. apply openDB_inv in H. inversion H; subst.
  - split; [assumption|]. split; [reflexivity|]. split; [reflexivity|].
    split; [apply disk_extends_refl | reflexivity].
  - split; [cbn; discriminate|]. split; [reflexivity|]. split; [reflexivity|].
    split; [|assumption].
    apply (initbuckets_extends (buckets bl)). assumption.
Qed.

Lemma closeDB_frame (bl : BoltLocknut) (w : World) :
  secret (fst (closeDB bl w)) = secret bl /\
  batchMode (fst (closeDB bl w)) = batchMode bl /\
  buckets (fst (closeDB bl w)) = buckets bl /\
  disk (snd (closeDB bl w)) = disk w /\
  rand_Reader (snd (closeDB bl w)) = rand_Reader w.
Proof.
  unfold closeDB. destruct (negb (batchMode bl) && negb (isNil (db bl))); cbn; auto.
Qed.

Lemma update_neutral (fn : Disk -> bytes -> wexit * bytes) (w : World) :
  opened (snd (update fn w)) = opened w /\ closed (snd (update fn w)) = closed w.
Proof.
  unfold update. destruct (fn (disk w) (rand_Reader w)) as [[tx|err|] rnd]; cbn; auto.
Qed.

(** The frame around every operation, seen from the connection: the handle
    changes in its [db] field only; out of batch mode the handle ends with
    no connection and every connection opened has been closed; in batch mode
    a connection that was there is still there and nothing was opened or
    closed. *)
Lemma scoped_lifecycle {A : Type} (bl bl' : BoltLocknut) (w w' : World)
    (on_err : error -> A) (body : BoltLocknut -> World -> exit A * World)
    (x : exit A) :
  conn_neutral body ->
  scoped bl w on_err body = (x, bl', w') ->
  (batchMode bl' = batchMode bl /\ secret bl' = secret bl /\ buckets bl' = buckets bl) /\
  (batchMode bl = false -> db bl = None ->
   db bl' = None /\
   ((opened w' = S (opened w) /\ closed w' = S (closed w)) \/
    (exists err rest, open_results w = Some err :: rest /\
                      opened w' = opened w /\ closed w' = closed w))) /\
  (forall d, batchMode bl = true -> db bl = Some d ->
             db bl' = Some d /\ opened w' = opened w /\ closed w' = closed w) /\
  (batchMode bl = true -> db bl = None ->
   (db bl' = Some {| conn_id := S (opened w) |} /\ opened w' = S (opened w) /\
    closed w' = closed w) \/
   (db bl' = None /\ opened w' + closed w = opened w + closed w' /\
    exists err, x = Return (on_err err))).
Proof.
  intros Hbody. unfold scoped.
  destruct (openDB bl w) as [[o bl1] w1] eqn:Ho.
  apply openDB_inv in Ho.
  destruct Ho as [Hb Hd | err rest Hg Hor | err w1 Hg Hdk Hr Hop1 Hcl1 Hi
                 | w1 Hg Hi Hr Hop1 Hcl1].
  - (* the connection of batch mode is reused *)
    destruct (body bl w) as [y w2] eqn:Hy.
    pose proof (Hbody bl w) as [Hop Hcl]. rewrite Hy in Hop, Hcl. cbn in Hop, Hcl.
    unfold closeDB. rewrite Hb. cbn.
    intros [= <- <- <-].
    split; [auto|]. split; [congruence|]. split; [auto|]. congruence.
  - (* bbolt.Open failed *)
    intros [= <- <- <-]. cbn.
    split; [auto|]. split.
    { intros _ Hd. split; [assumption|]. right. eauto. }
    split.
    { intros d Hb Hd. rewrite Hb, Hd in Hg. discriminate. }
    intros _ Hd. right. split; [assumption|]. split; [lia|]. eauto.
  - (* the buckets could not be created *)
    intros [= <- <- <-].
    split; [auto|]. split.
    { intros _ Hd. split; [assumption|]. left. auto. }
    split.
    { intros d Hb Hd. rewrite Hb, Hd in Hg. discriminate. }
    intros _ Hd. right. split; [assumption|]. split; [lia|]. eauto.
  - (* a new connection *)
    destruct (body _ w1) as [y w2] eqn:Hy.
    pose proof (Hbody (set_db (Some {| conn_id := S (opened w) |}) bl) w1) as [Hop Hcl].
    rewrite Hy in Hop, Hcl. cbn in Hop, Hcl.
    unfold closeDB. cbn [batchMode db set_db isNil negb andb].
    destruct (batchMode bl) eqn:Hb; cbn; intros [= <- <- <-]; cbn.
    + split; [auto|]. split; [discriminate|]. split.
      { intros d _ Hd. rewrite Hd in Hg. discriminate. }
      intros _ _. left. split; [reflexivity|]. split; congruence.
    + split; [auto|]. split.
      { intros _ _. split; [reflexivity|]. left. split; congruence. }
      split; discriminate.
Qed.

End Connection.

Section Lifecycle.
Context `{E : Extern}.

Ltac neutral_body :=
  let bl0 := fresh "bl" in
  let w0 := fresh "w" in
  intros bl0 w0; cbn beta;
  repeat match goal with
         | |- context [update ?f ?w] => apply update_neutral
         | |- context [match ?d with _ => _ end] => destruct d; cbn [snd]
         | |- context [if ?b then _ else _] => destruct b; cbn [snd]
         | |- _ => split; reflexivity
         end.

(** What one operation does to the connection. *)
Lemma exec_operation (c : Call) (bl bl' : BoltLocknut) (w w' : World) :
  is_operation c = true ->
  exec c bl w = (bl', w') ->
  (batchMode bl' = batchMode bl /\ secret bl' = secret bl /\ buckets bl' = buckets bl) /\
  (batchMode bl = false -> db bl = None ->
   db bl' = None /\
   ((opened w' = S (opened w) /\ closed w' = S (closed w)) \/
    (exists err rest, open_results w = Some err :: rest /\
                      opened w' = opened w /\ closed w' = closed w))) /\
  (forall d, batchMode bl = true -> db bl = Some d ->
             db bl' = Some d /\ opened w' = opened w /\ closed w' = closed w) /\
  (batchMode bl = true -> db bl = None ->
   (db bl' = Some {| conn_id := S (opened w) |} /\ opened w' = S (opened w) /\
    closed w' = closed w) \/
   (db bl' = None /\ opened w' + closed w = opened w + closed w')).
Proof.
  intros Hop Hex.
  destruct c; try discriminate Hop; cbn [exec] in Hex;
    unfold GetOne, GetByPrefix, GetKeyList, Save, SaveBytes, Delete in Hex;
    match type of Hex with
    | context [scoped ?b ?w0 ?oe ?body] =>
      destruct (scoped b w0 oe body) as [[x b1] w1] eqn:Hs
    end;
    injection Hex as <- <-;
    (apply scoped_lifecycle in Hs; [| neutral_body]);
    destruct Hs as (H1 & H2 & H3 & H4);
    (split; [exact H1|]); (split; [exact H2|]); (split; [exact H3|]);
    intros Hb Hd; destruct (H4 Hb Hd) as [H|(Ha & Hb' & _)]; auto.
Qed.

Lemma exec_lifecycle_inv (c : Call) (bl : BoltLocknut) (w : World) :
  lifecycle_inv bl -> lifecycle_inv (fst (exec c bl w)).
Proof.
  intros Hinv.
  destruct (is_operation c) eqn:Hop.
  - destruct (exec c bl w) as [bl' w'] eqn:Hex. cbn [fst].
    destruct (exec_operation _ _ _ _ _ Hop Hex) as ((Hb & _) & H2 & _).
    intros Hb'. rewrite Hb in Hb'. apply (H2 Hb' (Hinv Hb')).
  - destruct c; try discriminate Hop; cbn [exec fst].
    + intros Hb. destruct (SetSecret_frame bl secret0) as (Hbm & Hdb & _).
      rewrite Hdb. apply Hinv. congruence.
    + unfold SetBatchMode, closeDB, lifecycle_inv. destruct mode; cbn.
      * intros Hb. discriminate.
      * destruct (db bl) eqn:Hd; cbn; intros _; [reflexivity | exact Hd].
Qed.

(** Any calls, the setters included, keep the lifecycle invariant. *)
Lemma run_lifecycle_inv (cs : list Call) (bl : BoltLocknut) (w : World) :
  lifecycle_inv bl -> lifecycle_inv (fst (run cs bl w)).
Proof.
  revert bl w. induction cs as [|c cs IH]; intros bl w Hinv; cbn [run].
  - exact Hinv.
  - pose proof (exec_lifecycle_inv c bl w Hinv) as H.
    destruct (exec c bl w) as [bl1 w1]. apply IH, H.
Qed.

(** The constructor hands out a handle that satisfies the invariant. *)
Lemma NewBoltLocknut_lifecycle_inv (os_Stat : string -> option FileMode)
    (nm pth : string) (secret0 : option bytes) (batch : bool)
    (bs : list string) (w w' : World) (bl : BoltLocknut) :
  NewBoltLocknut os_Stat nm pth secret0 batch bs w = (Return (Ok bl), w') ->
  lifecycle_inv bl.
Proof.
  unfold NewBoltLocknut.
  destruct (_ && _); [discriminate|].
  destruct (match os_Stat _ with Some ModeRegular => false | Some _ => true | None => false end);
    [discriminate|].
  destruct (openDB _ w) as [[[[err|]|] bl1] w1] eqn:Ho; try discriminate.
  unfold closeDB.
  destruct (negb (batchMode bl1) && negb (isNil (db bl1))) eqn:Hc;
    intros [= <- <-]; intros Hb; cbn in *; [reflexivity|].
  rewrite Hb in Hc. cbn in Hc. destruct (db bl1); [discriminate | reflexivity].
Qed.

(** In batch mode a connection that is open stays the same one through any
    sequence of operations, and nothing is opened or closed. *)
Lemma run_batch (cs : list Call) (bl : BoltLocknut) (w : World) (d : boltDB) :
  Forall (fun c => is_operation c = true) cs ->
  batchMode bl = true -> db bl = Some d ->
  db (fst (run cs bl w)) = Some d /\ batchMode (fst (run cs bl w)) = true /\
  opened (snd (run cs bl w)) = opened w /\ closed (snd (run cs bl w)) = closed w.
Proof.
  intros Hall. revert bl w. induction Hall as [|c cs Hc Hcs IH]; intros bl w Hb Hd.
  - cbn. auto.
  - cbn [run]. destruct (exec c bl w) as [bl1 w1] eqn:Hex.
    destruct (exec_operation _ _ _ _ _ Hc Hex) as ((Hb1 & _) & _ & H3 & _).
    destruct (H3 d Hb Hd) as (Hd1 & Ho1 & Hc1).
    rewrite Hb in Hb1.
    destruct (IH bl1 w1 Hb1 Hd1) as (? & ? & ? & ?).
    repeat split; congruence.
Qed.

(** C5. For a handle that holds no connection between operations when it is
    not in batch mode (as every handle from the constructor does, whatever
    calls were made on it), and any of the six operations [c]:
    out of batch mode [c] ends, on every way out, with the connection
    reference nil, having opened one connection at entry and closed it, or
    having failed to open one; in batch mode with no connection yet, [c]
    opens one and leaves it in the handle, or opening failed and whatever
    was opened has been closed; and a connection that is in the handle in
    batch mode is the same after any sequence [cs] of operations, none
    opened and none closed, until [SetBatchMode(false)] closes it. *)
Theorem connection_lifecycle (c : Call) (cs : list Call) (bl : BoltLocknut) (w : World) :
  is_operation c = true ->
  Forall (fun c' => is_operation c' = true) cs ->
  lifecycle_inv bl ->
  (batchMode bl = false ->
   db (fst (exec c bl w)) = None /\
   ((opened (snd (exec c bl w)) = S (opened w) /\
     closed (snd (exec c bl w)) = S (closed w)) \/
    (exists err rest, open_results w = Some err :: rest /\
       opened (snd (exec c bl w)) = opened w /\
       closed (snd (exec c bl w)) = closed w)) /\
   db (fst (run cs bl w)) = None) /\
  (batchMode bl = true -> db bl = None ->
   (db (fst (exec c bl w)) = Some {| conn_id := S (opened w) |} /\
    opened (snd (exec c bl w)) = S (opened w) /\
    closed (snd (exec c bl w)) = closed w) \/
   (db (fst (exec c bl w)) = None /\
    opened (snd (exec c bl w)) + closed w = opened w + closed (snd (exec c bl w)))) /\
  (forall d, batchMode bl = true -> db bl = Some d ->
     db (fst (run cs bl w)) = Some d /\
     batchMode (fst (run cs bl w)) = true /\
     opened (snd (run cs bl w)) = opened w /\
     closed (snd (run cs bl w)) = closed w /\
     db (fst (SetBatchMode (fst (run cs bl w)) (snd (run cs bl w)) false)) = None /\
     closed (snd (SetBatchMode (fst (run cs bl w)) (snd (run cs bl w)) false))
       = S (closed w)).
Proof.
  intros Hc Hcs Hinv.
  destruct (exec c bl w) as [bl1 w1] eqn:Hex. cbn [fst snd].
  destruct (exec_operation _ _ _ _ _ Hc Hex) as ((Hb1 & _) & H2 & H3 & H4).
  split; [|split].
  - intros Hb. destruct (H2 Hb (Hinv Hb)) as [Hd Hcount].
    split; [exact Hd|]. split; [exact Hcount|].
    assert (Hb' : batchMode (fst (run cs bl w)) = false).
    { clear -Hcs Hb. revert bl w Hb.
      induction Hcs as [|c' cs' Hc' _ IH]; intros bl w Hb; cbn [run]; [exact Hb|].
      destruct (exec c' bl w) as [bl2 w2] eqn:Hex.
      destruct (exec_operation _ _ _ _ _ Hc' Hex) as ((Hb2 & _) & _).
      apply IH. congruence. }
    apply (run_lifecycle_inv cs bl w Hinv Hb').
  - intros Hb Hd. destruct (H4 Hb Hd) as [H|H]; [left|right]; exact H.
  - intros d Hb Hd.
    destruct (run_batch cs bl w d Hcs Hb Hd) as (Hd' & Hb' & Ho' & Hc').
    split; [exact Hd'|]. split; [exact Hb'|]. split; [exact Ho'|]. split; [exact Hc'|].
    unfold SetBatchMode, closeDB. cbn. rewrite Hd'. cbn. rewrite Hc'. auto.
Qed.

End Lifecycle.

Lemma connection_lifecycle_witness :
  (db (fst (exec save_call
              (handle0 (Some key32) false ["article"%string])
              (world0 ∅ (tape x01 12)))) = None /\
   db (fst (run article_calls (handle0 (Some key32) false ["article"%string])
              (world0 ∅ (tape x01 12)))) = None) /\
  (db (fst (run article_calls batch_handle article_world)) = Some conn1 /\
   opened (snd (run article_calls batch_handle article_world)) = 0).
Proof.
  split.
  - destruct (connection_lifecycle save_call article_calls
                (handle0 (Some key32) false ["article"%string])
                (world0 ∅ (tape x01 12))) as [H _].
    + reflexivity.
    + repeat constructor.
    + intros _. reflexivity.
    + destruct (H eq_refl) as (H1 & _ & H3). split; assumption.
  - destruct (connection_lifecycle save_call article_calls
                batch_handle article_world) as (_ & _ & H).
    + reflexivity.
    + repeat constructor.
    + intros Hb. discriminate Hb.
    + destruct (H conn1 eq_refl eq_refl) as (H1 & _ & H3 & _).
      split; assumption.
Defined.

(** ** locknut.go: reading *)

Section Reading.
Context `{E : Extern}.

(** [Cursor.Seek] stops at the first record whose key is not below the one
    sought. *)
Lemma Cursor_Seek_first (seek : string) (pre post : Bucket) (k : string) (v : bytes) :
  Forall (fun kv => String.ltb (fst kv) seek = true) pre ->
  String.ltb k seek = false ->
  Cursor_Seek seek (pre ++ (k, v) :: post) = (k, v) :: post.
Proof.
  intros Hpre Hk. induction Hpre as [|[k' v'] pre Hlt _ IH]; cbn [app Cursor_Seek].
  - rewrite Hk. reflexivity.
  - cbn [fst] in Hlt. rewrite Hlt. exact IH.
Qed.

(** What the cursor yields are records of the bucket. *)
Lemma Cursor_Seek_In (seek : string) (b : Bucket) (kv : string * bytes) :
  In kv (Cursor_Seek seek b) -> In kv b.
Proof.
  induction b as [|[k' v'] b IH]; cbn [Cursor_Seek]; [auto|].
  destruct (String.ltb k' seek); [|auto].
  intros H. right. apply IH, H.
Qed.

(** [GetOne] with a usable connection and a key that is not empty: the
    outcome of the closure [seek] on the file, with the connection closed
    again as [closeDB] decides. *)
Lemma GetOne_opened (bl bl1 : BoltLocknut) (w w1 : World) (bucket key : string) :
  key <> EmptyString ->
  openDB bl w = (Return None, bl1, w1) ->
  GetOne bl w bucket key =
    (Return (match GetOne_seek (secret bl) bucket key (disk w1) with
             | (_, Some err) => Err err
             | (result, None) => Ok result
             end),
     fst (closeDB bl1 w1), snd (closeDB bl1 w1)).
Proof.
  intros Hkey Ho. unfold GetOne, scoped. rewrite Ho.
  apply String.eqb_neq in Hkey. rewrite Hkey.
  destruct (openDB_ok _ _ _ _ Ho) as (_ & Hs & _). rewrite Hs.
  unfold view.
  destruct (GetOne_seek (secret bl) bucket key (disk w1)) as [r [err|]];
    destruct (closeDB bl1 w1); reflexivity.
Qed.

(** C4. In an existing bucket, with a key that is not empty and a connection
    that opens: when [(k, v)] is the first record whose key is not below
    [key] (every record before it has a key below [key]) and [k] has [key] as
    a prefix, [GetOne] returns the value [v] of that record, decrypted under
    the secret when one is set: the plaintext when [Decrypt] yields one, its
    failure otherwise.  The key found need not equal [key]. *)
Theorem GetOne_prefix_match (bl bl1 : BoltLocknut) (w w1 : World)
    (bucket key : string) (pre post : Bucket) (k : string) (v : bytes) :
  key <> EmptyString ->
  openDB bl w = (Return None, bl1, w1) ->
  disk w !! bucket = Some (pre ++ (k, v) :: post) ->
  Forall (fun kv => String.ltb (fst kv) key = true) pre ->
  String.ltb k key = false ->
  HasPrefix k key = true ->
  GetOne bl w bucket key =
    (Return (match secret bl with
             | Some s =>
               match Decrypt v s with
               | Ok dec => Ok dec
               | Err err => Err (ErrDecrypt err)
               end
             | None => Ok v
             end),
     fst (closeDB bl1 w1), snd (closeDB bl1 w1)).
Proof.
  intros Hkey Ho Hb Hpre Hk Hp.
  rewrite (GetOne_opened _ _ _ _ bucket key Hkey Ho).
  destruct (openDB_ok _ _ _ _ Ho) as (_ & _ & _ & Hext & _).
  destruct (Hext bucket) as [Hkeep _]. apply Hkeep in Hb.
  unfold GetOne_seek, Tx_Bucket. rewrite Hb.
  rewrite (Cursor_Seek_first key pre post k v Hpre Hk). rewrite Hp.
  destruct (secret bl) as [s|]; [|reflexivity].
  destruct (Decrypt v s); reflexivity.
Qed.

(** C7. In a bucket that exists when the connection is open, with a key that
    is not empty: when no stored key has [key] as a prefix, [GetOne] returns
    the empty result and no error.  That is also what it returns when a
    record is found whose value decrypts to the empty byte sequence, so the
    two cases look the same to the caller. *)
Theorem GetOne_no_match (bl bl1 : BoltLocknut) (w w1 : World)
    (bucket key : string) (bkt : Bucket) :
  key <> EmptyString ->
  openDB bl w = (Return None, bl1, w1) ->
  disk w1 !! bucket = Some bkt ->
  (forall k v, In (k, v) bkt -> HasPrefix k key = false) ->
  GetOne bl w bucket key = (Return (Ok []), fst (closeDB bl1 w1), snd (closeDB bl1 w1)) /\
  (forall (w' w1' : World) (bl1' : BoltLocknut) (k : string) (v s : bytes) (rest : Cursor)
          (bkt' : Bucket),
      openDB bl w' = (Return None, bl1', w1') ->
      disk w1' !! bucket = Some bkt' ->
      Cursor_Seek key bkt' = (k, v) :: rest ->
      HasPrefix k key = true ->
      secret bl = Some s ->
      Decrypt v s = Ok [] ->
      fst (fst (GetOne bl w' bucket key)) = fst (fst (GetOne bl w bucket key))).
Proof.
  intros Hkey Ho Hb Hnone.
  assert (Hmiss : GetOne bl w bucket key =
            (Return (Ok []), fst (closeDB bl1 w1), snd (closeDB bl1 w1))).
  { rewrite (GetOne_opened _ _ _ _ bucket key Hkey Ho).
    unfold GetOne_seek, Tx_Bucket. rewrite Hb.
    destruct (Cursor_Seek key bkt) as [|[k v] rest] eqn:Hc; [reflexivity|].
    rewrite (Hnone k v); [reflexivity|].
    apply (Cursor_Seek_In key). rewrite Hc. left. reflexivity. }
  split; [exact Hmiss|].
  intros w' w1' bl1' k v s rest bkt' Ho' Hb' Hc Hp Hs Hd.
  rewrite Hmiss. rewrite (GetOne_opened _ _ _ _ bucket key Hkey Ho').
  unfold GetOne_seek, Tx_Bucket. rewrite Hb', Hc, Hp, Hs, Hd. reflexivity.
Qed.

End Reading.

(** The example program on the small instance: after the three saves the
    bucket holds the keys in ascending order, [GetKeyList] under "t" lists
    "taylor" and "test", and [GetOne] of "ta" and of "taylor" both return what
    was saved under "taylor". *)
Example example_program :
  map fst (default [] (disk (snd example_saved) !! "pii"%string))
  = ["asdfasdf"%string; "taylor"%string; "test"%string] /\
  fst (fst (GetKeyList (fst example_saved) (snd example_saved) "pii" "t"))
  = Return (Some ["taylor"%string; "test"%string], None) /\
  fst (fst (GetOne (fst example_saved) (snd example_saved) "pii" "ta"))
  = Return (Ok (str_bytes "T")) /\
  fst (fst (GetOne (fst example_saved) (snd example_saved) "pii" "taylor"))
  = Return (Ok (str_bytes "T")).
Proof. vm_compute. repeat split; reflexivity. Qed.

Lemma GetOne_prefix_match_witness :
  fst (fst (GetOne pii_handle pii_world "pii" "ta")) = Return (Ok (str_bytes "T")).
Proof.
  rewrite (GetOne_prefix_match pii_handle
             (snd (fst (openDB pii_handle pii_world)))
             pii_world (snd (openDB pii_handle pii_world))
             "pii" "ta"
             [("asdfasdf"%string, sim_payload (str_bytes "A"))]
             [("test"%string, sim_payload (str_bytes "E"))]
             "taylor" (sim_payload (str_bytes "T"))).
  - vm_compute. reflexivity.
  - discriminate.
  - vm_compute. reflexivity.
  - vm_compute. reflexivity.
  - repeat constructor.
  - reflexivity.
  - reflexivity.
Defined.

Lemma GetOne_no_match_witness :
  GetOne pii_handle pii_world "pii" "x" =
    (Return (Ok []),
     fst (closeDB (snd (fst (openDB pii_handle pii_world))) (snd (openDB pii_handle pii_world))),
     snd (closeDB (snd (fst (openDB pii_handle pii_world))) (snd (openDB pii_handle pii_world)))) /\
  fst (fst (GetOne pii_handle empty_value_world "pii" "x"))
  = fst (fst (GetOne pii_handle pii_world "pii" "x")).
Proof.
  destruct (GetOne_no_match pii_handle (snd (fst (openDB pii_handle pii_world)))
              pii_world (snd (openDB pii_handle pii_world)) "pii" "x" pii_bucket)
    as [Hmiss Hsame].
  - discriminate.
  - vm_compute. reflexivity.
  - vm_compute. reflexivity.
  - intros k v [H|[H|[H|[]]]]; injection H as <- <-; reflexivity.
  - split; [exact Hmiss|].
    apply (Hsame empty_value_world (snd (openDB pii_handle empty_value_world))
             (snd (fst (openDB pii_handle empty_value_world)))
             "xyz"%string (sim_payload []) key32 []
             [("xyz"%string, sim_payload [])]).
    + vm_compute. reflexivity.
    + vm_compute. reflexivity.
    + reflexivity.
    + reflexivity.
    + reflexivity.
    + vm_compute. reflexivity.
Defined.

(** ** locknut.go: scanning *)

Section Scanning.
Context `{E : Extern}.

Lemma GetByPrefix_opened (bl bl1 : BoltLocknut) (w w1 : World) (bucket prefix : string) :
  openDB bl w = (Return None, bl1, w1) ->
  GetByPrefix bl w bucket prefix =
    (Return (Some (fst (GetByPrefix_seekPrefix (secret bl) bucket prefix ∅ (disk w1))),
             snd (GetByPrefix_seekPrefix (secret bl) bucket prefix ∅ (disk w1))),
     fst (closeDB bl1 w1), snd (closeDB bl1 w1)).
Proof.
  intros Ho. unfold GetByPrefix, scoped. rewrite Ho.
  destruct (openDB_ok _ _ _ _ Ho) as (_ & Hs & _). rewrite Hs.
  unfold view.
  destruct (GetByPrefix_seekPrefix (secret bl) bucket prefix ∅ (disk w1)) as [r err].
  destruct (closeDB bl1 w1); reflexivity.
Qed.

(** The loop stops at the first record that does not decrypt, with what it
    had collected until then. *)
Lemma GetByPrefix_loop_failure (s : bytes) (prefix : string) (good : list scanned)
    (k : string) (v : bytes) (post : Cursor) (err : error) (m : gmap string bytes) :
  Forall (fun g => HasPrefix (s_key g) prefix = true /\ s_key g <> EmptyString /\
                   Decrypt (s_value g) s = Ok (s_plain g)) good ->
  HasPrefix k prefix = true -> k <> EmptyString ->
  Decrypt v s = Err err ->
  GetByPrefix_loop (Some s) prefix (map record_of good ++ (k, v) :: post) m
  = (collect m good, Some (ErrDecrypt err)).
Proof.
  intros Hgood Hp Hk Hd. revert m.
  assert (Hlen : forall x : string, x <> EmptyString -> (String.length x =? 0) = false).
  { intros [|a x] Hx; [congruence | reflexivity]. }
  induction Hgood as [|g good (Hgp & Hgk & Hgd) _ IH]; intros m;
    cbn [map app GetByPrefix_loop record_of].
  - rewrite Hp, (Hlen k Hk), andb_false_r, Hd. reflexivity.
  - rewrite Hgp, (Hlen _ Hgk), andb_false_r, Hgd. apply IH.
Qed.

(** C3, as the code has it.  With a secret set and a connection that opens:
    when the scan of [GetByPrefix] comes, after the records [good] that
    decrypt, to a record [(k, v)] under the prefix that does not decrypt, it
    stops there and [GetByPrefix] returns the decrypt failure; together with
    the error it returns the map of the records decrypted before the failure,
    and nothing of the records from the failing one on. *)
Theorem GetByPrefix_decrypt_failure (bl bl1 : BoltLocknut) (w w1 : World)
    (bucket prefix : string) (bkt : Bucket) (s : bytes) (good : list scanned)
    (k : string) (v : bytes) (post : Cursor) (err : error) :
  openDB bl w = (Return None, bl1, w1) ->
  secret bl = Some s ->
  disk w1 !! bucket = Some bkt ->
  Cursor_Seek prefix bkt = map record_of good ++ (k, v) :: post ->
  Forall (fun g => HasPrefix (s_key g) prefix = true /\ s_key g <> EmptyString /\
                   Decrypt (s_value g) s = Ok (s_plain g)) good ->
  HasPrefix k prefix = true -> k <> EmptyString ->
  Decrypt v s = Err err ->
  GetByPrefix bl w bucket prefix =
    (Return (Some (collect ∅ good), Some (ErrDecrypt err)),
     fst (closeDB bl1 w1), snd (closeDB bl1 w1)).
Proof.
  intros Ho Hs Hb Hc Hgood Hp Hk Hd.
  rewrite (GetByPrefix_opened _ _ _ _ bucket prefix Ho).
  unfold GetByPrefix_seekPrefix, Tx_Bucket. rewrite Hb, Hs, Hc.
  rewrite (GetByPrefix_loop_failure s prefix good k v post err ∅ Hgood Hp Hk Hd).
  reflexivity.
Qed.

End Scanning.

(** C3 as stated fails: the record under "test" does not decrypt, and the
    caller receives, with the error, the map holding the plaintext of
    "taylor", decrypted before the failure. *)
Lemma GetByPrefix_returns_partial_map :
  fst (fst (GetByPrefix pii_handle damaged_world "pii" "t"))
  = Return (Some {[ "taylor"%string := str_bytes "T" ]},
            Some (ErrDecrypt ErrCiphertextTooShort)).
Proof. vm_compute. reflexivity. Qed.

Lemma GetByPrefix_decrypt_failure_witness :
  GetByPrefix pii_handle damaged_world "pii" "t" =
    (Return (Some {[ "taylor"%string := str_bytes "T" ]},
             Some (ErrDecrypt ErrCiphertextTooShort)),
     fst (closeDB (snd (fst (openDB pii_handle damaged_world)))
            (snd (openDB pii_handle damaged_world))),
     snd (closeDB (snd (fst (openDB pii_handle damaged_world)))
            (snd (openDB pii_handle damaged_world)))).
Proof.
  refine (GetByPrefix_decrypt_failure pii_handle _ damaged_world _ "pii" "t"
            damaged_bucket key32
            [{| s_key := "taylor"; s_value := sim_payload (str_bytes "T");
                s_plain := str_bytes "T" |}]
            "test" [x01; x02; x03] [] ErrCiphertextTooShort _ _ _ _ _ _ _ _).
  - vm_compute. reflexivity.
  - reflexivity.
  - vm_compute. reflexivity.
  - vm_compute. reflexivity.
  - repeat constructor. discriminate.
  - reflexivity.
  - discriminate.
  - vm_compute. reflexivity.
Defined.

(** ** locknut.go: writing *)

Section Writing.
Context `{E : Extern}.

(** [Save]'s closure is [SaveBytes]'s after [json.Marshal]. *)
Lemma Save_save_SaveBytes_save (sec : option bytes) (bucket key : string)
    (data : value) (tx : Disk) (rnd : bytes) :
  Save_save sec bucket key data tx rnd =
    match json_Marshal data with
    | Err err => (WErr err, rnd)
    | Ok v => SaveBytes_save sec bucket key v tx rnd
    end.
Proof. reflexivity. Qed.

(** What the three ways out of [Bucket.Put] say about its arguments. *)
Lemma Bucket_Put_cases (bkt : option Bucket) (bucket key : string) (v : bytes) (tx : Disk) :
  match Bucket_Put bkt bucket key v tx with
  | WOk tx' =>
    key <> EmptyString /\
    exists b, bkt = Some b /\ tx' = <[bucket := bucket_put key v b]> tx
  | WErr err => bkt <> None
  | WPanic => bkt = None
  end.
Proof.
  unfold Bucket_Put. destruct bkt as [b|]; [|reflexivity].
  destruct key as [|a key]; cbn [String.length Nat.eqb]; [discriminate|].
  destruct (_ <? _)%Z; [discriminate|].
  destruct (_ <? _)%Z; [discriminate|].
  split; [discriminate|]. eauto.
Qed.

(** What the ways out of [SaveBytes]'s closure say: a change to the file is
    the insertion, under a key that is not empty and into a bucket that
    exists, of the payload [Encrypt] returned when a secret is set; a panic
    means the bucket is missing. *)
Lemma SaveBytes_save_cases (sec : option bytes) (bucket key : string) (d : bytes)
    (tx : Disk) (rnd : bytes) :
  match SaveBytes_save sec bucket key d tx rnd with
  | (WOk tx', rnd') =>
    key <> EmptyString /\
    exists b stored,
      tx !! bucket = Some b /\ tx' = <[bucket := bucket_put key stored b]> tx /\
      match sec with
      | Some s => Encrypt d s rnd = (Ok stored, rnd')
      | None => stored = d /\ rnd' = rnd
      end
  | (WErr err, _) => True
  | (WPanic, _) => tx !! bucket = None
  end.
Proof.
  unfold SaveBytes_save, Tx_Bucket. destruct sec as [s|].
  - destruct (Encrypt d s rnd) as [[enc|err] rnd'] eqn:He; [|exact I].
    pose proof (Bucket_Put_cases (tx !! bucket) bucket key enc tx) as H.
    destruct (Bucket_Put (tx !! bucket) bucket key enc tx); [|exact I|exact H].
    destruct H as (Hk & b & Hb & ->). split; [exact Hk|]. eauto.
  - pose proof (Bucket_Put_cases (tx !! bucket) bucket key d tx) as H.
    destruct (Bucket_Put (tx !! bucket) bucket key d tx); [|exact I|exact H].
    destruct H as (Hk & b & Hb & ->). split; [exact Hk|]. eauto 6.
Qed.

(** With an empty key the closure changes nothing, and it returns an error
    when the bucket exists. *)
Lemma SaveBytes_save_empty_key (sec : option bytes) (bucket : string) (d : bytes)
    (tx : Disk) (rnd : bytes) :
  match fst (SaveBytes_save sec bucket EmptyString d tx rnd) with
  | WOk _ => False
  | WErr _ => True
  | WPanic => tx !! bucket = None
  end.
Proof.
  pose proof (SaveBytes_save_cases sec bucket EmptyString d tx rnd) as H.
  destruct (SaveBytes_save sec bucket EmptyString d tx rnd) as [[tx'|err|] rnd'];
    cbn [fst]; [|exact I|exact H].
  destruct H as [Hk _]. apply Hk. reflexivity.
Qed.

Lemma openDB_err (bl bl1 : BoltLocknut) (w w1 : World) (err : error) :
  openDB bl w = (Return (Some err), bl1, w1) ->
  bl1 = bl /\ disk w1 = disk w /\ rand_Reader w1 = rand_Reader w.
Proof.
  intros H. apply openDB_inv in H. inversion H; subst; cbn; auto.
Qed.

Lemma openDB_no_panic (bl bl1 : BoltLocknut) (w w1 : World) :
  openDB bl w <> (Panic, bl1, w1).
Proof. intros H. apply openDB_inv in H. inversion H. Qed.

Lemma Save_write_op (bl : BoltLocknut) (w : World) (bucket key : string)
    (data : option value) :
  Save bl w bucket key data =
    write_op (fun bl d => Save_save (secret bl) bucket key d) bl w data.
Proof. reflexivity. Qed.

Lemma SaveBytes_write_op (bl : BoltLocknut) (w : World) (bucket key : string)
    (data : option bytes) :
  SaveBytes bl w bucket key data =
    write_op (fun bl d => SaveBytes_save (secret bl) bucket key d) bl w data.
Proof. reflexivity. Qed.

Lemma write_op_cases {D : Type}
    (fn : BoltLocknut -> D -> Disk -> bytes -> wexit * bytes)
    (bl : BoltLocknut) (w : World) (data : option D) :
  write_outcome fn bl w data (fst (fst (write_op fn bl w data)))
    (snd (write_op fn bl w data)).
Proof.
  unfold write_op, scoped.
  destruct (openDB bl w) as [[[[err|]|] bl1] w1] eqn:Ho.
  - cbn. apply write_not_opened. apply (openDB_err _ _ _ _ _ Ho).
  - destruct data as [d|].
    + unfold update.
      destruct (fn bl1 d (disk w1) (rand_Reader w1)) as [[tx'|err|] rnd'] eqn:Hf.
      * pose proof (closeDB_frame bl1 (set_rand rnd' (set_disk tx' w1))) as (_ & _ & _ & Hd & _).
        destruct (closeDB bl1 _) as [bl3 w3]. cbn in *.
        eapply write_committed; eauto.
      * pose proof (closeDB_frame bl1 (set_rand rnd' w1)) as (_ & _ & _ & Hd & _).
        destruct (closeDB bl1 _) as [bl3 w3]. cbn in *.
        eapply write_rolled_back; eauto.
      * pose proof (closeDB_frame bl1 (set_rand rnd' w1)) as (_ & _ & _ & Hd & _).
        destruct (closeDB bl1 _) as [bl3 w3]. cbn in *.
        eapply write_panicked; eauto.
    + pose proof (closeDB_frame bl1 w1) as (_ & _ & _ & Hd & _).
      destruct (closeDB bl1 w1) as [bl3 w3]. cbn in *.
      eapply write_nil; eauto.
  - exfalso. apply (openDB_no_panic _ _ _ _ Ho).
Qed.

End Writing.

Section MissingBucket.
Context `{E : Extern}.

(** C6 (the code departs from the claim).  On a bucket that does not exist
    once the connection is open, the read operations return
    [ErrBucketNotFound]; but [Delete], and [SaveBytes] and [Save] once the
    value is encoded and encrypted, call a method on the nil bucket and end
    in a panic, not in an error returned to the caller. *)
Theorem missing_bucket_writes_panic (bl bl1 : BoltLocknut) (w w1 : World)
    (bucket key : string) (s : bytes) :
  openDB bl w = (Return None, bl1, w1) ->
  disk w1 !! bucket = None ->
  key <> EmptyString ->
  secret bl = Some s ->
  (fst (fst (GetOne bl w bucket key)) = Return (Err ErrBucketNotFound) /\
   fst (fst (GetByPrefix bl w bucket key)) = Return (Some ∅, Some ErrBucketNotFound) /\
   fst (fst (GetKeyList bl w bucket key)) = Return (Some [], Some ErrBucketNotFound)) /\
  fst (fst (Delete bl w bucket key)) = Panic /\
  (forall d payload rnd',
      Encrypt d s (rand_Reader w) = (Ok payload, rnd') ->
      fst (fst (SaveBytes bl w bucket key (Some d))) = Panic) /\
  (forall v d payload rnd',
      json_Marshal v = Ok d ->
      Encrypt d s (rand_Reader w) = (Ok payload, rnd') ->
      fst (fst (Save bl w bucket key (Some v))) = Panic).
Proof.
  intros Ho Hb Hkey Hs.
  destruct (openDB_ok _ _ _ _ Ho) as (_ & Hs1 & _ & _ & Hr).
  assert (Hk : String.eqb key EmptyString = false) by (apply String.eqb_neq, Hkey).
  split; [split; [|split]|split; [|split]].
  - rewrite (GetOne_opened _ _ _ _ bucket key Hkey Ho).
    unfold GetOne_seek, Tx_Bucket. rewrite Hb. reflexivity.
  - rewrite (GetByPrefix_opened _ _ _ _ bucket key Ho).
    unfold GetByPrefix_seekPrefix, Tx_Bucket. rewrite Hb. reflexivity.
  - unfold GetKeyList, scoped. rewrite Ho.
    unfold view, GetKeyList_seekPrefix, Tx_Bucket. rewrite Hb.
    destruct (closeDB bl1 w1). reflexivity.
  - unfold Delete, scoped. rewrite Ho, Hk.
    unfold update, Delete_delete, Tx_Bucket. rewrite Hb. cbn.
    destruct (closeDB bl1 _). reflexivity.
  - intros d payload rnd' He.
    unfold SaveBytes, scoped. rewrite Ho.
    unfold update, SaveBytes_save, Tx_Bucket. rewrite Hs1, Hs, Hr, He, Hb. cbn.
    destruct (closeDB bl1 _). reflexivity.
  - intros v d payload rnd' Hm He.
    unfold Save, scoped. rewrite Ho.
    unfold update, Save_save, Tx_Bucket. rewrite Hm, Hs1, Hs, Hr, He, Hb. cbn.
    destruct (closeDB bl1 _). reflexivity.
Qed.

End MissingBucket.

Lemma missing_bucket_writes_panic_witness :
  fst (fst (GetOne pii_handle pii_world "nosuch" "taylor")) = Return (Err ErrBucketNotFound) /\
  fst (fst (Delete pii_handle pii_world "nosuch" "taylor")) = Panic /\
  fst (fst (SaveBytes pii_handle (set_rand (tape x01 12) pii_world) "nosuch" "taylor"
              (Some (str_bytes "T")))) = Panic.
Proof.
  split; [|split].
  - refine (proj1 (proj1 (missing_bucket_writes_panic pii_handle _ pii_world _
              "nosuch" "taylor" key32 _ _ _ _))).
    + vm_compute. reflexivity.
    + vm_compute. reflexivity.
    + discriminate.
    + reflexivity.
  - refine (proj1 (proj2 (missing_bucket_writes_panic pii_handle _ pii_world _
              "nosuch" "taylor" key32 _ _ _ _))).
    + vm_compute. reflexivity.
    + vm_compute. reflexivity.
    + discriminate.
    + reflexivity.
  - refine (proj1 (proj2 (proj2 (missing_bucket_writes_panic pii_handle _
              (set_rand (tape x01 12) pii_world) _
              "nosuch" "taylor" key32 _ _ _ _))) (str_bytes "T") _ _ _).
    + vm_compute. reflexivity.
    + vm_compute. reflexivity.
    + discriminate.
    + reflexivity.
    + vm_compute. reflexivity.
Defined.

(** ** The keys of the stored records *)

Section Keys.
Context `{E : Extern}.

Lemma bucket_put_In (k : string) (v : bytes) (b : Bucket) (kv : string * bytes) :
  In kv (bucket_put k v b) -> kv = (k, v) \/ In kv b.
Proof.
  induction b as [|[k' v'] b IH]; cbn [bucket_put].
  - intros [H|[]]. left. symmetry. exact H.
  - destruct (String.compare k k').
    + intros [H|H]; [left; symmetry; exact H | right; right; exact H].
    + intros [H|H]; [left; symmetry; exact H | right; exact H].
    + intros [H|H]; [right; left; exact H|].
      destruct (IH H) as [H'|H']; [left; exact H' | right; right; exact H'].
Qed.

Lemma keys_nonempty_extends (d d' : Disk) :
  disk_extends d d' -> keys_nonempty d -> keys_nonempty d'.
Proof.
  intros Hext Hd bn b k v Hb Hin.
  destruct (Hext bn) as [_ Hnew]. destruct (Hnew b Hb) as [Hold| ->].
  - apply (Hd bn b k v Hold Hin).
  - destruct Hin.
Qed.

Lemma keys_nonempty_put (tx : Disk) (bucket key : string) (v : bytes) (b : Bucket) :
  keys_nonempty tx -> tx !! bucket = Some b -> key <> EmptyString ->
  keys_nonempty (<[bucket := bucket_put key v b]> tx).
Proof.
  intros Htx Hb Hkey bn b' k' v' Hb' Hin.
  destruct (decide (bucket = bn)) as [<-|Hne].
  - rewrite lookup_insert_eq in Hb'. injection Hb' as <-.
    destruct (bucket_put_In _ _ _ _ Hin) as [[= -> ->]|Hold]; [exact Hkey|].
    apply (Htx bucket b k' v' Hb Hold).
  - rewrite lookup_insert_ne in Hb' by exact Hne.
    apply (Htx bn b' k' v' Hb' Hin).
Qed.

Lemma SaveBytes_save_keeps_keys (sec : option bytes) (bucket key : string) (d : bytes)
    (tx tx' : Disk) (rnd rnd' : bytes) :
  SaveBytes_save sec bucket key d tx rnd = (WOk tx', rnd') ->
  keys_nonempty tx -> keys_nonempty tx'.
Proof.
  intros H Htx. pose proof (SaveBytes_save_cases sec bucket key d tx rnd) as Hc.
  rewrite H in Hc. destruct Hc as (Hk & b & stored & Hb & -> & _).
  apply keys_nonempty_put; assumption.
Qed.

Lemma Save_save_keeps_keys (sec : option bytes) (bucket key : string) (d : value)
    (tx tx' : Disk) (rnd rnd' : bytes) :
  Save_save sec bucket key d tx rnd = (WOk tx', rnd') ->
  keys_nonempty tx -> keys_nonempty tx'.
Proof.
  rewrite Save_save_SaveBytes_save.
  destruct (json_Marshal d) as [v|err]; [|discriminate].
  apply SaveBytes_save_keeps_keys.
Qed.

Lemma Save_save_empty_key (sec : option bytes) (bucket : string) (d : value)
    (tx : Disk) (rnd : bytes) :
  match fst (Save_save sec bucket EmptyString d tx rnd) with
  | WOk _ => False
  | WErr _ => True
  | WPanic => tx !! bucket = None
  end.
Proof.
  rewrite Save_save_SaveBytes_save.
  destruct (json_Marshal d) as [v|err]; [|exact I].
  apply SaveBytes_save_empty_key.
Qed.

(** A write operation whose transaction keeps the keys non-empty keeps the
    file's keys non-empty. *)
Lemma write_op_keeps_keys {D : Type}
    (fn : BoltLocknut -> D -> Disk -> bytes -> wexit * bytes)
    (bl : BoltLocknut) (w : World) (data : option D) :
  (forall bl1 d tx rnd tx' rnd',
      fn bl1 d tx rnd = (WOk tx', rnd') -> keys_nonempty tx -> keys_nonempty tx') ->
  keys_nonempty (disk w) ->
  keys_nonempty (disk (snd (write_op fn bl w data))).
Proof.
  intros Hfn Hw. pose proof (write_op_cases fn bl w data) as H.
  destruct (write_op fn bl w data) as [[x bl'] w']. cbn [fst snd] in *.
  assert (Hopen : forall bl1 w1, openDB bl w = (Return None, bl1, w1) ->
                                 keys_nonempty (disk w1)).
  { intros bl1 w1 Ho. destruct (openDB_ok _ _ _ _ Ho) as (_ & _ & _ & Hext & _).
    apply (keys_nonempty_extends _ _ Hext Hw). }
  destruct H as [err w' Hd | bl1 w1 w' Ho _ Hd | bl1 w1 w' d tx' rnd' Ho _ Hf Hd
                 | bl1 w1 w' d err rnd' Ho _ _ Hd | bl1 w1 w' d rnd' Ho _ _ Hd];
    rewrite Hd; eauto.
Qed.

(** A write operation whose transaction never commits leaves the records as
    they were, does not return success, and returns an error when the bucket
    was there. *)
Lemma write_op_refused {D : Type}
    (fn : BoltLocknut -> D -> Disk -> bytes -> wexit * bytes)
    (bl : BoltLocknut) (w : World) (data : option D) (bucket : string) :
  (forall bl1 d tx rnd,
      match fst (fn bl1 d tx rnd) with
      | WOk _ => False
      | WErr _ => True
      | WPanic => tx !! bucket = None
      end) ->
  fst (fst (write_op fn bl w data)) <> Return None /\
  disk_extends (disk w) (disk (snd (write_op fn bl w data))) /\
  (is_Some (disk w !! bucket) ->
   exists err, fst (fst (write_op fn bl w data)) = Return (Some err)).
Proof.
  intros Hfn. pose proof (write_op_cases fn bl w data) as H.
  destruct (write_op fn bl w data) as [[x bl'] w']. cbn [fst snd] in *.
  assert (Hopen : forall bl1 w1, openDB bl w = (Return None, bl1, w1) ->
                                 disk_extends (disk w) (disk w1)).
  { intros bl1 w1 Ho. apply (openDB_ok _ _ _ _ Ho). }
  destruct H as [err w' Hd | bl1 w1 w' Ho _ Hd | bl1 w1 w' d tx' rnd' Ho _ Hf Hd
                 | bl1 w1 w' d err rnd' Ho _ Hf Hd | bl1 w1 w' d rnd' Ho _ Hf Hd].
  - rewrite Hd. split; [discriminate|]. split; [apply disk_extends_refl | eauto].
  - rewrite Hd. split; [discriminate|]. split; [eauto | eauto].
  - exfalso. pose proof (Hfn bl1 d (disk w1) (rand_Reader w1)) as Hc.
    rewrite Hf in Hc. exact Hc.
  - rewrite Hd. split; [discriminate|]. split; [eauto | eauto].
  - rewrite Hd. split; [discriminate|]. split; [eauto|].
    intros [b Hb]. exfalso.
    pose proof (Hfn bl1 d (disk w1) (rand_Reader w1)) as Hc. rewrite Hf in Hc.
    cbn [fst] in Hc. destruct (Hopen bl1 w1 Ho bucket) as [Hkeep _].
    rewrite (Hkeep b Hb) in Hc. discriminate.
Qed.

(** [Save] and [SaveBytes] keep every stored record under a key that is
    not empty, whatever they are called with.  Called with the empty key
    they never return success and store nothing (the buckets that were there
    keep exactly their records, and a bucket that appears is empty); the
    request is turned down with an error whenever the bucket exists. *)
Lemma Save_never_stores_empty_key (bl : BoltLocknut) (w : World)
    (bucket key : string) (data : option value) (raw : option bytes) :
  (keys_nonempty (disk w) ->
   keys_nonempty (disk (snd (Save bl w bucket key data))) /\
   keys_nonempty (disk (snd (SaveBytes bl w bucket key raw)))) /\
  (key = EmptyString ->
   (fst (fst (Save bl w bucket key data)) <> Return None /\
    disk_extends (disk w) (disk (snd (Save bl w bucket key data))) /\
    (is_Some (disk w !! bucket) ->
     exists err, fst (fst (Save bl w bucket key data)) = Return (Some err))) /\
   (fst (fst (SaveBytes bl w bucket key raw)) <> Return None /\
    disk_extends (disk w) (disk (snd (SaveBytes bl w bucket key raw))) /\
    (is_Some (disk w !! bucket) ->
     exists err, fst (fst (SaveBytes bl w bucket key raw)) = Return (Some err)))).
Proof.
  rewrite Save_write_op, SaveBytes_write_op. split.
  - intros Hw. split; apply write_op_keeps_keys; try exact Hw.
    + intros bl1 d tx rnd tx' rnd'. apply Save_save_keeps_keys.
    + intros bl1 d tx rnd tx' rnd'. apply SaveBytes_save_keeps_keys.
  - intros ->. split; apply write_op_refused.
    + intros bl1 d tx rnd. apply Save_save_empty_key.
    + intros bl1 d tx rnd. apply SaveBytes_save_empty_key.
Qed.

(** C9 (the code departs from the claim).  A request with the empty key is
    not always rejected with an error.  On a bucket that does not exist once
    the connection is open, [SaveBytes] and [Save] with the empty key, once
    the value is encoded and encrypted, call [Put] on the nil bucket and end
    in a panic: the blank key is checked inside [Put], which is never
    reached.  No record is stored by the call. *)
Theorem empty_key_missing_bucket_panics (bl bl1 : BoltLocknut) (w w1 : World)
    (bucket : string) (s : bytes) :
  openDB bl w = (Return None, bl1, w1) ->
  disk w1 !! bucket = None ->
  secret bl = Some s ->
  (forall d payload rnd',
      Encrypt d s (rand_Reader w) = (Ok payload, rnd') ->
      fst (fst (SaveBytes bl w bucket EmptyString (Some d))) = Panic /\
      disk_extends (disk w) (disk (snd (SaveBytes bl w bucket EmptyString (Some d))))) /\
  (forall v d payload rnd',
      json_Marshal v = Ok d ->
      Encrypt d s (rand_Reader w) = (Ok payload, rnd') ->
      fst (fst (Save bl w bucket EmptyString (Some v))) = Panic /\
      disk_extends (disk w) (disk (snd (Save bl w bucket EmptyString (Some v))))).
Proof.
  intros Ho Hb Hs.
  destruct (openDB_ok _ _ _ _ Ho) as (_ & Hs1 & _ & _ & Hr).
  split.
  - intros d payload rnd' He. split.
    + unfold SaveBytes, scoped. rewrite Ho.
      unfold update, SaveBytes_save, Tx_Bucket. rewrite Hs1, Hs, Hr, He, Hb. cbn.
      destruct (closeDB bl1 _). reflexivity.
    + rewrite SaveBytes_write_op.
      refine (proj1 (proj2 (write_op_refused _ bl w (Some d) bucket _))).
      intros bl2 d2 tx rnd. apply SaveBytes_save_empty_key.
  - intros v d payload rnd' Hm He. split.
    + unfold Save, scoped. rewrite Ho.
      unfold update, Save_save, Tx_Bucket. rewrite Hm, Hs1, Hs, Hr, He, Hb. cbn.
      destruct (closeDB bl1 _). reflexivity.
    + rewrite Save_write_op.
      refine (proj1 (proj2 (write_op_refused _ bl w (Some v) bucket _))).
      intros bl2 d2 tx rnd. apply Save_save_empty_key.
Qed.

End Keys.

Lemma empty_key_missing_bucket_panics_witness :
  fst (fst (SaveBytes pii_handle (set_rand (tape x01 12) pii_world) "nosuch" EmptyString
              (Some (str_bytes "N")))) = Panic /\
  fst (fst (Save pii_handle (set_rand (tape x01 12) pii_world) "nosuch" EmptyString
              (Some (str_bytes "N")))) = Panic /\
  disk (snd (SaveBytes pii_handle (set_rand (tape x01 12) pii_world) "nosuch" EmptyString
               (Some (str_bytes "N")))) !! "pii"%string = Some pii_bucket.
Proof.
  split; [|split].
  - refine (proj1 (proj1 (empty_key_missing_bucket_panics pii_handle _
              (set_rand (tape x01 12) pii_world) _ "nosuch" key32 _ _ _)
              (str_bytes "N") _ _ _)).
    + vm_compute. reflexivity.
    + vm_compute. reflexivity.
    + reflexivity.
    + vm_compute. reflexivity.
  - refine (proj1 (proj2 (empty_key_missing_bucket_panics pii_handle _
              (set_rand (tape x01 12) pii_world) _ "nosuch" key32 _ _ _)
              (str_bytes "N") (str_bytes "N") _ _ _ _)).
    + vm_compute. reflexivity.
    + vm_compute. reflexivity.
    + reflexivity.
    + vm_compute. reflexivity.
    + vm_compute. reflexivity.
  - refine (proj1 (proj2 (proj1 (empty_key_missing_bucket_panics pii_handle _
              (set_rand (tape x01 12) pii_world) _ "nosuch" key32 _ _ _)
              (str_bytes "N") _ _ _) "pii"%string) pii_bucket _).
    + vm_compute. reflexivity.
    + vm_compute. reflexivity.
    + reflexivity.
    + vm_compute. reflexivity.
    + reflexivity.
Defined.

Lemma Save_never_stores_empty_key_witness :
  fst (fst (Save pii_handle (set_rand (tape x01 12) pii_world) "pii" "newkey"
              (Some (str_bytes "N")))) = Return None /\
  keys_nonempty (disk (snd (Save pii_handle (set_rand (tape x01 12) pii_world) "pii" "newkey"
                              (Some (str_bytes "N"))))) /\
  fst (fst (SaveBytes pii_handle (set_rand (tape x01 12) pii_world) "pii" EmptyString
              (Some (str_bytes "N")))) = Return (Some ErrKeyRequired).
Proof.
  split; [vm_compute; reflexivity|]. split.
  - refine (proj1 (proj1 (Save_never_stores_empty_key pii_handle
              (set_rand (tape x01 12) pii_world)
              "pii" "newkey" (Some (str_bytes "N")) None) _)).
    intros bn b k v Hb Hin.
    destruct (decide (bn = "pii"%string)) as [->|Hne].
    + vm_compute in Hb. injection Hb as <-.
      destruct Hin as [H|[H|[H|[]]]]; injection H as <- _; discriminate.
    + unfold pii_world, world0, set_rand in Hb. cbn [disk] in Hb.
      rewrite lookup_singleton_ne in Hb by congruence. discriminate.
  - destruct (proj2 (Save_never_stores_empty_key pii_handle
                       (set_rand (tape x01 12) pii_world) "pii" EmptyString None
                       (Some (str_bytes "N"))) eq_refl) as (_ & _ & _ & H).
    destruct H as [err Herr]; [vm_compute; eauto|].
    rewrite Herr. vm_compute in Herr. symmetry. exact Herr.
Defined.

(** ** Values are never stored or returned raw *)

Section NeverRaw.
Context `{E : Extern}.

Lemma String_compare_refl (s : string) : String.compare s s = Eq.
Proof.
  induction s as [|a s IH]; [reflexivity|].
  cbn [String.compare]. unfold Ascii.compare. rewrite N.compare_refl. exact IH.
Qed.

(** After [Put], the key holds the value put. *)
Lemma bucket_get_put (k : string) (v : bytes) (b : Bucket) :
  bucket_get k (bucket_put k v b) = Some v.
Proof.
  induction b as [|[k' v'] b IH]; cbn [bucket_put bucket_get].
  - rewrite String.eqb_refl. reflexivity.
  - destruct (String.compare k k') eqn:Hc; cbn [bucket_get].
    + rewrite String.eqb_refl. reflexivity.
    + rewrite String.eqb_refl. reflexivity.
    + destruct (String.eqb_spec k k') as [->|_]; [|exact IH].
      rewrite String_compare_refl in Hc. discriminate.
Qed.




End NeverRaw.

Section SecretInvariant.
Context `{L : ExternLaws}.





End SecretInvariant.



(** * Further properties *)

(** ** aes.go: keys, errors and the [Cryptor] object *)

Section CryptorMore.
Context `{E : Extern}.

Lemma aes_NewCipher_valid (key : bytes) :
  aes_key_size key = true ->
  aes_NewCipher key = Ok {| block_key := key; BlockSize := 16 |}.
Proof. unfold aes_key_size, aes_NewCipher. intros ->. reflexivity. Qed.

Lemma aes_NewCipher_invalid (key : bytes) :
  aes_key_size key = false ->
  aes_NewCipher key = Err (KeySizeError (length key)).
Proof. unfold aes_key_size, aes_NewCipher. intros ->. reflexivity. Qed.

Lemma firstn_skipn_nonce (nonce ct : bytes) :
  length nonce = 12 ->
  firstn 12 (nonce ++ ct) = nonce /\ skipn 12 (nonce ++ ct) = ct.
Proof.
  intros Hn. split.
  - rewrite <- Hn at 1. rewrite firstn_app, Nat.sub_diag, firstn_all. cbn [firstn].
    apply app_nil_r.
  - rewrite <- Hn. rewrite skipn_app, Nat.sub_diag, skipn_all. reflexivity.
Qed.

Lemma Encrypt_ok_key_size (p key rnd payload rnd' : bytes) :
  Encrypt p key rnd = (Ok payload, rnd') -> aes_key_size key = true.
Proof.
  intros He. destruct (aes_key_size key) eqn:Hk; [reflexivity|].
  unfold Encrypt in He. rewrite (aes_NewCipher_invalid key Hk) in He. discriminate.
Qed.

(** X5. [Encrypt] returns a payload exactly when the key has 16, 24 or 32
    bytes and the random source delivers 12 bytes.  A key of any other
    length is refused with its size, by [Encrypt] before any random byte is
    read and by [Decrypt] whatever the payload.  Under an accepted key,
    [Encrypt] with fewer than 12 random bytes to read returns the error of
    [io.ReadFull], which is [io.EOF] when the source has no byte at all and
    [io.ErrUnexpectedEOF] when it has some; and [Decrypt] refuses a payload
    of fewer than 12 bytes as too short. *)
Theorem Encrypt_Decrypt_errors (p key rnd ct : bytes) :
  ((exists payload rnd', Encrypt p key rnd = (Ok payload, rnd')) <->
   aes_key_size key = true /\ 12 <= length rnd) /\
  (aes_key_size key = false ->
   Encrypt p key rnd = (Err (KeySizeError (length key)), rnd) /\
   Decrypt ct key = Err (KeySizeError (length key))) /\
  (aes_key_size key = true -> length rnd < 12 ->
   Encrypt p key rnd =
     (Err (if length rnd =? 0 then ErrEOF else ErrUnexpectedEOF), [])) /\
  (aes_key_size key = true -> length ct < 12 ->
   Decrypt ct key = Err ErrCiphertextTooShort).
Proof.
  split; [|split; [|split]].
  - split.
    + intros (payload & rnd' & He).
      destruct (Encrypt_inv _ _ _ _ _ He) as (Hle & _). split; [|exact Hle].
      apply (Encrypt_ok_key_size _ _ _ _ _ He).
    + intros [Hk Hle]. unfold Encrypt. rewrite (aes_NewCipher_valid key Hk).
      cbn [cipher_NewGCM BlockSize Nat.eqb NonceSize].
      rewrite (io_ReadFull_ok rnd 12 Hle). eauto.
  - intros Hk. unfold Encrypt, Decrypt. rewrite (aes_NewCipher_invalid key Hk). auto.
  - intros Hk Hlt. unfold Encrypt. rewrite (aes_NewCipher_valid key Hk).
    cbn [cipher_NewGCM BlockSize Nat.eqb NonceSize]. unfold io_ReadFull.
    destruct (Nat.leb_spec 12 (length rnd)); [lia|].
    destruct (length rnd =? 0); reflexivity.
  - intros Hk Hlt. unfold Decrypt. rewrite (aes_NewCipher_valid key Hk).
    cbn [cipher_NewGCM BlockSize Nat.eqb NonceSize].
    destruct (Nat.ltb_spec (length ct) 12); [reflexivity | lia].
Qed.

Lemma Cryptor_Encrypt_as_Encrypt (c : Cryptor) (key rnd : bytes) :
  Cryptor_Encrypt c key rnd =
    match Encrypt (plain c) key rnd with
    | (Ok payload, rnd') => (None, {| plain := plain c; Cipher := payload |}, rnd')
    | (Err err, rnd') => (Some err, c, rnd')
    end.
Proof.
  unfold Cryptor_Encrypt, Encrypt.
  destruct (aes_NewCipher key) as [a|err]; [|reflexivity].
  destruct (cipher_NewGCM a) as [gcm|err]; [|reflexivity].
  destruct (io_ReadFull rnd (NonceSize gcm)) as [[nonce|err] rnd']; reflexivity.
Qed.

(** X2. The object and the functions are two codings of one scheme:
    [c.Encrypt(key)] fails exactly as [Encrypt(c.plain, key)] does, leaving
    the object as it was, and otherwise stores the payload [Encrypt]
    returns; [c.Decrypt(key)] returns what [Decrypt(c.Cipher, key)]
    returns.  So a payload made by either can be opened by the other. *)
Theorem Cryptor_agrees_with_functions (c : Cryptor) (key rnd : bytes) :
  Cryptor_Encrypt c key rnd =
    match Encrypt (plain c) key rnd with
    | (Ok payload, rnd') => (None, {| plain := plain c; Cipher := payload |}, rnd')
    | (Err err, rnd') => (Some err, c, rnd')
    end /\
  fst (Cryptor_Decrypt c key) = Decrypt (Cipher c) key.
Proof.
  split; [apply Cryptor_Encrypt_as_Encrypt|].
  unfold Cryptor_Decrypt, Decrypt.
  destruct (aes_NewCipher key) as [a|err]; [|reflexivity].
  destruct (cipher_NewGCM a) as [gcm|err]; [|reflexivity].
  destruct (length (Cipher c) <? NonceSize gcm); [reflexivity|].
  destruct (Open gcm _ _); reflexivity.
Qed.

(** X3. A [c.Decrypt(key)] that fails because the key has a wrong size or
    the stored payload is shorter than a nonce leaves the object as it was;
    one that fails because the tag does not verify has replaced the
    plaintext the object held by nil.  The stored payload is never
    changed. *)
Theorem Cryptor_Decrypt_failure (c c' : Cryptor) (key : bytes) (err : error) :
  Cryptor_Decrypt c key = (Err err, c') ->
  Cipher c' = Cipher c /\
  (err = ErrGCMOpen -> plain c' = []) /\
  (err <> ErrGCMOpen ->
   c' = c /\ (err = KeySizeError (length key) \/
              (err = ErrCiphertextTooShort /\ length (Cipher c) < 12))).
Proof.
  unfold Cryptor_Decrypt, aes_NewCipher.
  destruct ((length key =? 16) || (length key =? 24) || (length key =? 32)).
  - cbn [cipher_NewGCM BlockSize Nat.eqb NonceSize].
    destruct (Nat.ltb_spec (length (Cipher c)) 12) as [Hlt|Hge].
    + intros [= <- <-]. split; [reflexivity|]. split; [discriminate|].
      intros _. split; [reflexivity|]. right. auto.
    + unfold Open. destruct (gcm_open _ _ _); [discriminate|].
      intros [= <- <-]. cbn. split; [reflexivity|]. split; [reflexivity|].
      intros H. contradiction H. reflexivity.
  - intros [= <- <-]. split; [reflexivity|]. split; [discriminate|].
    intros _. split; [reflexivity|]. left. reflexivity.
Qed.

End CryptorMore.

Section CryptorRoundTrip.
Context `{L : ExternLaws}.

Lemma Cryptor_Decrypt_sealed (c : Cryptor) (key nonce : bytes) :
  aes_key_size key = true -> length nonce = 12 ->
  Cryptor_Decrypt {| plain := plain c;
                     Cipher := nonce ++ gcm_seal key nonce (plain c) |} key
  = (Ok (plain c),
     {| plain := plain c; Cipher := nonce ++ gcm_seal key nonce (plain c) |}).
Proof.
  intros Hk Hn. unfold Cryptor_Decrypt. rewrite (aes_NewCipher_valid key Hk).
  cbn [cipher_NewGCM BlockSize Nat.eqb NonceSize block_key Cipher].
  destruct (Nat.ltb_spec (length (nonce ++ gcm_seal key nonce (plain c))) 12) as [Hlt|_].
  { rewrite length_app in Hlt. lia. }
  destruct (firstn_skipn_nonce nonce (gcm_seal key nonce (plain c)) Hn) as [-> ->].
  unfold Open. cbn [aead_key]. rewrite (gcm_open_seal key nonce (plain c) Hn).
  reflexivity.
Qed.

Lemma Cryptor_Encrypt_ok (c : Cryptor) (key rnd : bytes) :
  aes_key_size key = true -> 12 <= length rnd ->
  Cryptor_Encrypt c key rnd =
    (None,
     {| plain := plain c;
        Cipher := firstn 12 rnd ++ gcm_seal key (firstn 12 rnd) (plain c) |},
     skipn 12 rnd).
Proof.
  intros Hk Hle. unfold Cryptor_Encrypt. rewrite (aes_NewCipher_valid key Hk).
  cbn [cipher_NewGCM BlockSize Nat.eqb NonceSize block_key].
  rewrite (io_ReadFull_ok rnd 12 Hle). reflexivity.
Qed.

(** X1. Under a key of 16, 24 or 32 bytes, with 12 random bytes to read,
    [c.Encrypt(key)] succeeds, and [c.Decrypt(key)] on the object it leaves
    returns the plaintext the object holds and changes nothing; more
    generally that is so after every successful [c.Encrypt(key)]. *)
Theorem Cryptor_Encrypt_Decrypt (c : Cryptor) (key rnd : bytes) :
  (forall c' rnd', Cryptor_Encrypt c key rnd = (None, c', rnd') ->
                   plain c' = plain c /\ Cryptor_Decrypt c' key = (Ok (plain c), c')) /\
  (aes_key_size key = true -> 12 <= length rnd ->
   exists c', Cryptor_Encrypt c key rnd = (None, c', skipn 12 rnd) /\
              Cryptor_Decrypt c' key = (Ok (plain c), c')).
Proof.
  split.
  - intros c' rnd' He.
    rewrite Cryptor_Encrypt_as_Encrypt in He.
    destruct (Encrypt (plain c) key rnd) as [[payload|err] r] eqn:Hf; [|discriminate].
    injection He as <- _.
    pose proof (Encrypt_ok_key_size _ _ _ _ _ Hf) as Hk.
    destruct (Encrypt_inv _ _ _ _ _ Hf) as (Hle & -> & _).
    split; [reflexivity|].
    apply Cryptor_Decrypt_sealed; [exact Hk|]. rewrite length_firstn. lia.
  - intros Hk Hle. eexists. split; [apply (Cryptor_Encrypt_ok c key rnd Hk Hle)|].
    apply Cryptor_Decrypt_sealed; [exact Hk|]. rewrite length_firstn. lia.
Qed.

(** X4. [c.EncryptWithNewKey()] with 44 random bytes to read returns the
    first 32 as the key and leaves an object that [c.Decrypt] opens under
    that key.  With at least 32 but fewer than 44 it still returns the key
    and no error, although the encryption failed and the object is as it
    was: the error of [c.Encrypt] is dropped. *)
Theorem Cryptor_EncryptWithNewKey_cases (c : Cryptor) (rnd : bytes) :
  (44 <= length rnd ->
   exists c', Cryptor_EncryptWithNewKey c rnd = (Ok (firstn 32 rnd), c', skipn 44 rnd) /\
              length (firstn 32 rnd) = 32 /\
              Cryptor_Decrypt c' (firstn 32 rnd) = (Ok (plain c), c')) /\
  (32 <= length rnd < 44 ->
   Cryptor_EncryptWithNewKey c rnd = (Ok (firstn 32 rnd), c, [])).
Proof.
  unfold Cryptor_EncryptWithNewKey, GetRandKey.
  split.
  - intros Hle. rewrite (io_ReadFull_ok rnd 32) by lia.
    assert (Hl : length (firstn 32 rnd) = 32) by (rewrite length_firstn; lia).
    assert (Hk : aes_key_size (firstn 32 rnd) = true).
    { unfold aes_key_size. rewrite Hl. reflexivity. }
    assert (Hr : 12 <= length (skipn 32 rnd)) by (rewrite length_skipn; lia).
    rewrite (Cryptor_Encrypt_ok c (firstn 32 rnd) (skipn 32 rnd) Hk Hr).
    eexists. rewrite skipn_skipn. cbn [Nat.add].
    split; [reflexivity|]. split; [exact Hl|].
    apply Cryptor_Decrypt_sealed; [exact Hk|]. rewrite length_firstn. lia.
  - intros [Hge Hlt]. rewrite (io_ReadFull_ok rnd 32 Hge).
    unfold Cryptor_Encrypt, aes_NewCipher.
    rewrite length_firstn. replace (Nat.min 32 (length rnd)) with 32 by lia.
    cbn [Nat.eqb orb cipher_NewGCM BlockSize NonceSize]. unfold io_ReadFull.
    destruct (Nat.leb_spec 12 (length (skipn 32 rnd))) as [H|_];
      [|destruct (length (skipn 32 rnd) =? 0); reflexivity].
    rewrite length_skipn in H. lia.
Qed.

End CryptorRoundTrip.

Lemma Cryptor_Decrypt_failure_witness :
  Cipher (snd (Cryptor_Decrypt {| plain := str_bytes "kept"; Cipher := tape x00 30 |} key32))
  = tape x00 30 /\
  plain (snd (Cryptor_Decrypt {| plain := str_bytes "kept"; Cipher := tape x00 30 |} key32))
  = [].
Proof.
  destruct (Cryptor_Decrypt_failure
              {| plain := str_bytes "kept"; Cipher := tape x00 30 |}
              (snd (Cryptor_Decrypt {| plain := str_bytes "kept"; Cipher := tape x00 30 |} key32))
              key32 ErrGCMOpen) as (Hc & Hp & _).
  - vm_compute. reflexivity.
  - split; [exact Hc | exact (Hp eq_refl)].
Defined.

Lemma Cryptor_Encrypt_Decrypt_witness :
  exists c', Cryptor_Encrypt (NewCryptor (str_bytes "I like seafood.")) key32 (tape x07 12)
             = (None, c', []) /\
             Cryptor_Decrypt c' key32 = (Ok (str_bytes "I like seafood."), c').
Proof.
  refine (proj2 (Cryptor_Encrypt_Decrypt (NewCryptor (str_bytes "I like seafood."))
                   key32 (tape x07 12)) _ _).
  - reflexivity.
  - vm_compute. lia.
Defined.

Lemma Cryptor_EncryptWithNewKey_cases_witness :
  (exists c', Cryptor_EncryptWithNewKey (NewCryptor (str_bytes "capsule")) tape44
              = (Ok (tape x05 32), c', []) /\
              Cryptor_Decrypt c' (tape x05 32) = (Ok (str_bytes "capsule"), c')) /\
  Cryptor_EncryptWithNewKey (NewCryptor (str_bytes "capsule")) (tape x05 40)
  = (Ok (tape x05 32), NewCryptor (str_bytes "capsule"), []).
Proof.
  split.
  - destruct (proj1 (Cryptor_EncryptWithNewKey_cases
                       (NewCryptor (str_bytes "capsule")) tape44))
      as (c' & He & _ & Hd).
    + vm_compute. lia.
    + exists c'. split; [exact He | exact Hd].
  - refine (proj2 (Cryptor_EncryptWithNewKey_cases
                     (NewCryptor (str_bytes "capsule")) (tape x05 40)) _).
    vm_compute. lia.
Defined.

Lemma Encrypt_Decrypt_errors_witness :
  (exists payload rnd', Encrypt (str_bytes "T") key32 (tape x01 12) = (Ok payload, rnd')) /\
  Encrypt (str_bytes "T") secret33 (tape x01 12) = (Err (KeySizeError 33), tape x01 12) /\
  Encrypt (str_bytes "T") key32 [] = (Err ErrEOF, []) /\
  Encrypt (str_bytes "T") key32 (tape x01 5) = (Err ErrUnexpectedEOF, []) /\
  Decrypt [x01; x02; x03] key32 = Err ErrCiphertextTooShort.
Proof.
  split; [|split; [|split; [|split]]].
  - apply (proj1 (Encrypt_Decrypt_errors (str_bytes "T") key32 (tape x01 12) [])).
    split; [reflexivity | vm_compute; lia].
  - apply (proj1 (proj2 (Encrypt_Decrypt_errors (str_bytes "T") secret33 (tape x01 12) []))).
    reflexivity.
  - apply (proj1 (proj2 (proj2 (Encrypt_Decrypt_errors (str_bytes "T") key32 [] [])))).
    + reflexivity.
    + vm_compute. lia.
  - apply (proj1 (proj2 (proj2
             (Encrypt_Decrypt_errors (str_bytes "T") key32 (tape x01 5) [])))).
    + reflexivity.
    + vm_compute. lia.
  - apply (proj2 (proj2 (proj2 (Encrypt_Decrypt_errors [] key32 [] [x01; x02; x03])))).
    + reflexivity.
    + vm_compute. lia.
Defined.

(** ** The order of keys *)

Lemma Ascii_compare_refl (a : ascii) : Ascii.compare a a = Eq.
Proof. unfold Ascii.compare. apply N.compare_refl. Qed.

Lemma Ascii_compare_lt_trans (a b c : ascii) :
  Ascii.compare a b = Lt -> Ascii.compare b c = Lt -> Ascii.compare a c = Lt.
Proof.
  unfold Ascii.compare. rewrite !N.compare_lt_iff. apply N.lt_trans.
Qed.

Lemma String_compare_lt_trans (a b c : string) :
  String.compare a b = Lt -> String.compare b c = Lt -> String.compare a c = Lt.
Proof.
  revert b c. induction a as [|x a IH]; intros [|y b] [|z c]; cbn [String.compare];
    try discriminate; try reflexivity.
  destruct (Ascii.compare x y) eqn:Hxy; try discriminate.
  - apply Ascii.compare_eq_iff in Hxy. subst y.
    destruct (Ascii.compare x z); try discriminate; [apply IH | reflexivity].
  - intros _. destruct (Ascii.compare y z) eqn:Hyz; try discriminate.
    + apply Ascii.compare_eq_iff in Hyz. subst z. rewrite Hxy. reflexivity.
    + rewrite (Ascii_compare_lt_trans x y z Hxy Hyz). reflexivity.
Qed.

Lemma String_ltb_compare (a b : string) :
  String.ltb a b = true <-> String.compare a b = Lt.
Proof. unfold String.ltb. destruct (String.compare a b); split; congruence. Qed.

Lemma String_ltb_trans (a b c : string) :
  String.ltb a b = true -> String.ltb b c = true -> String.ltb a c = true.
Proof. rewrite !String_ltb_compare. apply String_compare_lt_trans. Qed.

Lemma String_ltb_irrefl (a : string) : String.ltb a a = false.
Proof. unfold String.ltb. rewrite String_compare_refl. reflexivity. Qed.

Lemma String_compare_Gt_ltb (a b : string) :
  String.compare a b = Gt -> String.ltb b a = true.
Proof.
  intros H. apply String_ltb_compare. rewrite String.compare_antisym, H. reflexivity.
Qed.

(** A key that has the prefix is not below the prefix. *)
Lemma HasPrefix_not_below (k p : string) :
  HasPrefix k p = true -> String.ltb k p = false.
Proof.
  unfold HasPrefix, String.ltb. revert k.
  induction p as [|a p IH]; intros [|b k]; cbn [String.prefix String.compare];
    try reflexivity; try discriminate.
  destruct (ascii_dec a b) as [<-|]; [|discriminate].
  rewrite Ascii_compare_refl. apply IH.
Qed.

(** Above a key that is not below the prefix and does not have it, no key
    has the prefix: the keys under a prefix are consecutive in the order. *)
Lemma HasPrefix_gap (p k k' : string) :
  String.ltb k p = false -> HasPrefix k p = false -> String.ltb k k' = true ->
  HasPrefix k' p = false.
Proof.
  unfold HasPrefix, String.ltb. revert k k'.
  induction p as [|a p IH]; intros [|b k] [|c k']; cbn [String.prefix String.compare];
    try reflexivity; try discriminate.
  destruct (ascii_dec a b) as [<-|Hab].
  - rewrite Ascii_compare_refl. intros Hk Hp.
    destruct (Ascii.compare a c) eqn:Hac; try discriminate.
    + apply Ascii.compare_eq_iff in Hac. subst c.
      destruct (ascii_dec a a) as [_|Hn]; [|reflexivity]. apply IH; assumption.
    + intros _. destruct (ascii_dec a c) as [<-|]; [|reflexivity].
      rewrite Ascii_compare_refl in Hac. discriminate.
  - destruct (Ascii.compare b a) eqn:Hba; try discriminate.
    + apply Ascii.compare_eq_iff in Hba. congruence.
    + intros _ _. destruct (Ascii.compare b c) eqn:Hbc; try discriminate.
      * apply Ascii.compare_eq_iff in Hbc. subst c. intros _.
        destruct (ascii_dec a b); [congruence | reflexivity].
      * intros _. destruct (ascii_dec a c) as [<-|]; [|reflexivity].
        rewrite Hba in Hbc. discriminate.
Qed.

Lemma HasPrefix_refl (k : string) : HasPrefix k k = true.
Proof.
  unfold HasPrefix. induction k as [|a k IH]; [reflexivity|].
  cbn [String.prefix]. destruct (ascii_dec a a); [exact IH | congruence].
Qed.

Lemma HasPrefix_empty (k : string) : HasPrefix k EmptyString = true.
Proof. destruct k; reflexivity. Qed.

(** ** The order of the records is kept *)

Lemma bucket_put_sorted (k : string) (v : bytes) (b : Bucket) :
  bucket_sorted b -> bucket_sorted (bucket_put k v b).
Proof.
  unfold bucket_sorted. intros Hs.
  induction Hs as [|[k' v'] b Hs IH Hall]; cbn [bucket_put].
  - repeat constructor.
  - destruct (String.compare k k') eqn:Hc.
    + apply String.compare_eq_iff in Hc. subst k'.
      constructor; [exact Hs | exact Hall].
    + assert (Hlt : String.ltb k k' = true) by (apply String_ltb_compare, Hc).
      constructor; [constructor; assumption|].
      constructor; [exact Hlt|].
      eapply Forall_impl; [exact Hall|]. intros [k2 v2] H2. unfold key_lt in *. cbn in *.
      apply (String_ltb_trans k k' k2 Hlt H2).
    + constructor; [exact IH|].
      apply List.Forall_forall. intros kv Hin.
      destruct (bucket_put_In _ _ _ _ Hin) as [->|Hold].
      * unfold key_lt. cbn. apply String_compare_Gt_ltb, Hc.
      * apply (proj1 (List.Forall_forall _ _) Hall kv Hold).
Qed.

Lemma bucket_delete_In (k : string) (b : Bucket) (kv : string * bytes) :
  In kv (bucket_delete k b) -> In kv b /\ fst kv <> k.
Proof.
  induction b as [|[k' v'] b IH]; cbn [bucket_delete]; [intros []|].
  destruct (String.eqb_spec k k') as [->|Hne].
  - intros H. destruct (IH H). split; [right|]; assumption.
  - intros [<-|H].
    + split; [left; reflexivity | cbn; congruence].
    + destruct (IH H). split; [right|]; assumption.
Qed.

Lemma bucket_delete_sorted (k : string) (b : Bucket) :
  bucket_sorted b -> bucket_sorted (bucket_delete k b).
Proof.
  unfold bucket_sorted. intros Hs.
  induction Hs as [|[k' v'] b Hs IH Hall]; cbn [bucket_delete]; [constructor|].
  destruct (String.eqb k k'); [exact IH|].
  constructor; [exact IH|].
  apply List.Forall_forall. intros kv Hin.
  apply bucket_delete_In in Hin as [Hin _].
  apply (proj1 (List.Forall_forall _ _) Hall kv Hin).
Qed.

(** ** What the calls do to the file *)

Section StoreInvariant.
Context `{E : Extern}.

Lemma update_invariant (I : Disk -> Prop) (fn : Disk -> bytes -> wexit * bytes) (w : World) :
  (forall tx rnd tx' rnd', fn tx rnd = (WOk tx', rnd') -> I tx -> I tx') ->
  I (disk w) -> I (disk (snd (update fn w))).
Proof.
  intros Hfn Hw. unfold update.
  destruct (fn (disk w) (rand_Reader w)) as [[tx'|err|] rnd'] eqn:Hf; cbn; eauto.
Qed.

Lemma scoped_invariant {A : Type} (I : Disk -> Prop) (bl : BoltLocknut) (w : World)
    (on_err : error -> A) (body : BoltLocknut -> World -> exit A * World) :
  (forall d d', disk_extends d d' -> I d -> I d') ->
  (forall bl1 w1, I (disk w1) -> I (disk (snd (body bl1 w1)))) ->
  I (disk w) -> I (disk (snd (scoped bl w on_err body))).
Proof.
  intros Hext Hbody Hw. unfold scoped.
  destruct (openDB bl w) as [[[[err|]|] bl1] w1] eqn:Ho.
  - cbn. destruct (openDB_err _ _ _ _ _ Ho) as (_ & -> & _). exact Hw.
  - destruct (openDB_ok _ _ _ _ Ho) as (_ & _ & _ & Hx & _).
    pose proof (Hbody bl1 w1 (Hext _ _ Hx Hw)) as Hb.
    destruct (body bl1 w1) as [x w2]. cbn [snd] in Hb.
    pose proof (closeDB_frame bl1 w2) as (_ & _ & _ & Hd & _).
    destruct (closeDB bl1 w2) as [bl3 w3]. cbn [snd] in *. rewrite Hd. exact Hb.
  - exfalso. apply (openDB_no_panic _ _ _ _ Ho).
Qed.

Lemma SaveBytes_save_invariant (I : Disk -> Prop) (sec : option bytes)
    (bucket key : string) (d : bytes) (tx tx' : Disk) (rnd rnd' : bytes) :
  store_invariant I ->
  SaveBytes_save sec bucket key d tx rnd = (WOk tx', rnd') -> I tx -> I tx'.
Proof.
  intros (_ & Hput & _) H Htx.
  pose proof (SaveBytes_save_cases sec bucket key d tx rnd) as Hc. rewrite H in Hc.
  destruct Hc as (Hk & b & stored & Hb & -> & _). apply Hput; assumption.
Qed.

Lemma exec_drops_result {A : Type} (X : exit A * BoltLocknut * World) :
  snd (let '(_, bl', w') := X in (bl', w')) = snd X.
Proof. destruct X as [[x bl'] w']. reflexivity. Qed.

(** Every call keeps a store invariant. *)
Lemma exec_invariant (I : Disk -> Prop) (c : Call) (bl : BoltLocknut) (w : World) :
  store_invariant I -> I (disk w) -> I (disk (snd (exec c bl w))).
Proof.
  intros HI Hw. pose proof HI as (Hext & Hput & Hdel).
  destruct c as [bucket key | bucket pfx | bucket pfx | bucket key data
                 | bucket key data | bucket key | secret0 | mode];
    cbn [exec]; try rewrite exec_drops_result.
  - unfold GetOne. apply scoped_invariant; [exact Hext | | exact Hw].
    intros bl1 w1 H1. destruct (String.eqb key EmptyString); [exact H1|].
    destruct (view _ w1) as [r [err|]]; exact H1.
  - unfold GetByPrefix. apply scoped_invariant; [exact Hext | | exact Hw].
    intros bl1 w1 H1. cbn zeta. destruct (view _ w1) as [r err]. exact H1.
  - unfold GetKeyList. apply scoped_invariant; [exact Hext | | exact Hw].
    intros bl1 w1 H1. cbn zeta. destruct (view _ w1) as [r err]. exact H1.
  - unfold Save. apply scoped_invariant; [exact Hext | | exact Hw].
    intros bl1 w1 H1. destruct data as [d|]; [|exact H1].
    apply update_invariant; [|exact H1].
    intros tx rnd tx' rnd'. rewrite Save_save_SaveBytes_save.
    destruct (json_Marshal d); [|discriminate].
    apply SaveBytes_save_invariant, HI.
  - unfold SaveBytes. apply scoped_invariant; [exact Hext | | exact Hw].
    intros bl1 w1 H1. destruct data as [d|]; [|exact H1].
    apply update_invariant; [|exact H1].
    intros tx rnd tx' rnd'. apply SaveBytes_save_invariant, HI.
  - unfold Delete. apply scoped_invariant; [exact Hext | | exact Hw].
    intros bl1 w1 H1. destruct (String.eqb key EmptyString); [exact H1|].
    apply update_invariant; [|exact H1].
    intros tx rnd tx' rnd'. unfold Delete_delete, Bucket_Delete, Tx_Bucket.
    destruct (tx !! bucket) as [b|] eqn:Hb; [|discriminate].
    intros [= <- _]. apply Hdel. exact Hb.
  - exact Hw.
  - unfold SetBatchMode. destruct mode; cbn [negb snd]; [exact Hw|].
    destruct (closeDB_frame (set_batchMode false bl) w) as (_ & _ & _ & -> & _).
    exact Hw.
Qed.

Lemma run_invariant (I : Disk -> Prop) (cs : list Call) (bl : BoltLocknut) (w : World) :
  store_invariant I -> I (disk w) -> I (disk (snd (run cs bl w))).
Proof.
  intros HI. revert bl w. induction cs as [|c cs IH]; intros bl w Hw; cbn [run].
  - exact Hw.
  - pose proof (exec_invariant I c bl w HI Hw) as H.
    destruct (exec c bl w) as [bl1 w1]. apply IH, H.
Qed.

Lemma disk_sorted_invariant : store_invariant disk_sorted.
Proof.
  split; [|split].
  - intros d d' Hext Hd bn b Hb. destruct (Hext bn) as [_ Hnew].
    destruct (Hnew b Hb) as [Hold| ->]; [apply (Hd bn b Hold) | constructor].
  - intros tx bucket key v b Hb _ Htx bn b' Hb'.
    destruct (decide (bucket = bn)) as [<-|Hne].
    + rewrite lookup_insert_eq in Hb'. injection Hb' as <-.
      apply bucket_put_sorted, (Htx bucket b Hb).
    + rewrite lookup_insert_ne in Hb' by exact Hne. apply (Htx bn b' Hb').
  - intros tx bucket key b Hb Htx bn b' Hb'.
    destruct (decide (bucket = bn)) as [<-|Hne].
    + rewrite lookup_insert_eq in Hb'. injection Hb' as <-.
      apply bucket_delete_sorted, (Htx bucket b Hb).
    + rewrite lookup_insert_ne in Hb' by exact Hne. apply (Htx bn b' Hb').
Qed.

Lemma keys_nonempty_invariant : store_invariant keys_nonempty.
Proof.
  split; [|split].
  - apply keys_nonempty_extends.
  - intros tx bucket key v b Hb Hk Htx. apply keys_nonempty_put; assumption.
  - intros tx bucket key b Hb Htx bn b' k v Hb' Hin.
    destruct (decide (bucket = bn)) as [<-|Hne].
    + rewrite lookup_insert_eq in Hb'. injection Hb' as <-.
      apply bucket_delete_In in Hin as [Hin _]. apply (Htx bucket b k v Hb Hin).
    + rewrite lookup_insert_ne in Hb' by exact Hne. apply (Htx bn b' k v Hb' Hin).
Qed.

Lemma has_bucket_invariant (bn : string) :
  store_invariant (fun d : Disk => is_Some (d !! bn)).
Proof.
  split; [|split].
  - intros d d' Hext [b Hb]. destruct (Hext bn) as [Hkeep _]. eauto.
  - intros tx bucket key v b Hb _ Htx. apply lookup_insert_is_Some.
    destruct (decide (bucket = bn)); [left | right]; auto.
  - intros tx bucket key b Hb Htx. apply lookup_insert_is_Some.
    destruct (decide (bucket = bn)); [left | right]; auto.
Qed.

(** X6. Whatever calls are made on a handle, in whatever order and however
    they end: the keys of every bucket stay in strictly ascending order (so
    no key occurs twice in a bucket), every stored key stays non-empty, and
    no bucket of the file goes away. *)
Theorem calls_keep_store_wellformed (cs : list Call) (bl : BoltLocknut) (w : World) :
  (disk_sorted (disk w) -> disk_sorted (disk (snd (run cs bl w)))) /\
  (keys_nonempty (disk w) -> keys_nonempty (disk (snd (run cs bl w)))) /\
  (forall bn, is_Some (disk w !! bn) -> is_Some (disk (snd (run cs bl w)) !! bn)).
Proof.
  split; [|split].
  - apply run_invariant, disk_sorted_invariant.
  - apply run_invariant, keys_nonempty_invariant.
  - intros bn. apply (run_invariant (fun d : Disk => is_Some (d !! bn))),
      has_bucket_invariant.
Qed.

End StoreInvariant.

(** ** Saving, reading back and deleting *)

Section SaveAndRead.
Context `{E : Extern}.

(** The cursor sought at a key just put stands on it. *)
Lemma Cursor_Seek_put (k : string) (v : bytes) (b : Bucket) :
  exists rest, Cursor_Seek k (bucket_put k v b) = (k, v) :: rest.
Proof.
  induction b as [|[k' v'] b IH]; cbn [bucket_put].
  - cbn [Cursor_Seek]. rewrite String_ltb_irrefl. eauto.
  - destruct (String.compare k k') eqn:Hc; cbn [Cursor_Seek].
    + rewrite String_ltb_irrefl. eauto.
    + rewrite String_ltb_irrefl. eauto.
    + rewrite (String_compare_Gt_ltb k k' Hc). exact IH.
Qed.

Lemma bucket_get_put_other (k k' : string) (v : bytes) (b : Bucket) :
  k' <> k -> bucket_get k' (bucket_put k v b) = bucket_get k' b.
Proof.
  intros Hne. apply String.eqb_neq in Hne.
  induction b as [|[k2 v2] b IH]; cbn [bucket_put bucket_get].
  - rewrite Hne. reflexivity.
  - destruct (String.compare k k2) eqn:Hc; cbn [bucket_get].
    + apply String.compare_eq_iff in Hc. subst k2. rewrite Hne. reflexivity.
    + rewrite Hne. reflexivity.
    + rewrite IH. reflexivity.
Qed.

Lemma bucket_get_delete (k : string) (b : Bucket) :
  bucket_get k (bucket_delete k b) = None.
Proof.
  induction b as [|[k' v'] b IH]; cbn [bucket_delete]; [reflexivity|].
  destruct (String.eqb k k') eqn:He; [exact IH|].
  cbn [bucket_get]. rewrite He. exact IH.
Qed.

Lemma bucket_get_delete_other (k k' : string) (b : Bucket) :
  k' <> k -> bucket_get k' (bucket_delete k b) = bucket_get k' b.
Proof.
  intros Hne.
  induction b as [|[k2 v2] b IH]; cbn [bucket_delete]; [reflexivity|].
  destruct (String.eqb_spec k k2) as [<-|Hk]; cbn [bucket_get].
  - apply String.eqb_neq in Hne. rewrite Hne. exact IH.
  - rewrite IH. reflexivity.
Qed.

Lemma bucket_delete_absent (k : string) (b : Bucket) :
  bucket_get k b = None -> bucket_delete k b = b.
Proof.
  induction b as [|[k' v'] b IH]; cbn [bucket_delete bucket_get]; [reflexivity|].
  destruct (String.eqb k k'); [discriminate|].
  intros H. rewrite (IH H). reflexivity.
Qed.

(** What a write operation that returned no error has done. *)
Lemma SaveBytes_succeeded (bl bl' : BoltLocknut) (w w' : World)
    (bucket key : string) (d : bytes) :
  SaveBytes bl w bucket key (Some d) = (Return None, bl', w') ->
  key <> EmptyString /\ secret bl' = secret bl /\
  exists bl1 w1 b stored,
    openDB bl w = (Return None, bl1, w1) /\
    disk w1 !! bucket = Some b /\
    disk w' = <[bucket := bucket_put key stored b]> (disk w1) /\
    match secret bl with
    | Some s => exists rnd', Encrypt d s (rand_Reader w) = (Ok stored, rnd')
    | None => stored = d
    end.
Proof.
  intros H.
  assert (Hsec : secret bl' = secret bl).
  { assert (Hex : exec (CallSaveBytes bucket key (Some d)) bl w = (bl', w'))
      by (cbn [exec]; rewrite H; reflexivity).
    apply (exec_operation (CallSaveBytes bucket key (Some d)) bl bl' w w' eq_refl Hex). }
  rewrite SaveBytes_write_op in H.
  pose proof (write_op_cases
                (fun bl d => SaveBytes_save (secret bl) bucket key d) bl w (Some d)) as Hc.
  rewrite H in Hc. cbn [fst snd] in Hc.
  inversion Hc as [| | bl1 w1 w2 d' tx' rnd' Ho Hd Hf Hdisk | |]; subst.
  injection Hd as <-.
  destruct (openDB_ok _ _ _ _ Ho) as (_ & Hs1 & _ & _ & Hr).
  pose proof (SaveBytes_save_cases (secret bl1) bucket key d (disk w1) (rand_Reader w1)) as Hs.
  rewrite Hf in Hs. destruct Hs as (Hk & b & stored & Hb & Htx & He).
  split; [exact Hk|]. split; [exact Hsec|].
  exists bl1, w1, b, stored. split; [exact Ho|]. split; [exact Hb|].
  split; [congruence|]. rewrite Hs1, Hr in He.
  destruct (secret bl); [eauto | tauto].
Qed.

End SaveAndRead.

Section RoundTrips.
Context `{L : ExternLaws}.

(** What [Encrypt] returned, [Decrypt] opens, under a key of any accepted
    size. *)
Lemma Decrypt_of_Encrypt (p key rnd payload rnd' : bytes) :
  Encrypt p key rnd = (Ok payload, rnd') -> Decrypt payload key = Ok p.
Proof.
  intros He.
  pose proof (Encrypt_ok_key_size _ _ _ _ _ He) as Hk.
  destruct (Encrypt_inv _ _ _ _ _ He) as (Hle & -> & _).
  assert (Hn : length (firstn 12 rnd) = 12) by (rewrite length_firstn; lia).
  unfold Decrypt. rewrite (aes_NewCipher_valid key Hk).
  cbn [cipher_NewGCM BlockSize Nat.eqb NonceSize block_key].
  destruct (Nat.ltb_spec (length (firstn 12 rnd ++ gcm_seal key (firstn 12 rnd) p)) 12)
    as [Hlt|_].
  { rewrite length_app in Hlt. lia. }
  destruct (firstn_skipn_nonce _ (gcm_seal key (firstn 12 rnd) p) Hn) as [-> ->].
  unfold Open. cbn [aead_key]. rewrite (gcm_open_seal key _ p Hn). reflexivity.
Qed.

(** What [GetOne] returns once [SaveBytes] has succeeded. *)
Lemma GetOne_after_SaveBytes (bl bl' bl1 : BoltLocknut) (w w' w1 : World)
    (bucket key : string) (d : bytes) :
  SaveBytes bl w bucket key (Some d) = (Return None, bl', w') ->
  openDB bl' w' = (Return None, bl1, w1) ->
  fst (fst (GetOne bl' w' bucket key)) = Return (Ok d).
Proof.
  intros Hsave Ho.
  destruct (SaveBytes_succeeded _ _ _ _ _ _ _ Hsave)
    as (Hk & Hsec & bl0 & w0 & b & stored & _ & _ & Hdisk & Hstored).
  rewrite (GetOne_opened _ _ _ _ bucket key Hk Ho). cbn [fst].
  destruct (openDB_ok _ _ _ _ Ho) as (_ & _ & _ & Hext & _).
  destruct (Hext bucket) as [Hkeep _].
  assert (Hb : disk w1 !! bucket = Some (bucket_put key stored b)).
  { apply Hkeep. rewrite Hdisk. apply lookup_insert_eq. }
  unfold GetOne_seek, Tx_Bucket. rewrite Hb.
  destruct (Cursor_Seek_put key stored b) as [rest ->].
  rewrite HasPrefix_refl, Hsec.
  destruct (secret bl) as [s|].
  - destruct Hstored as [rnd' He]. rewrite (Decrypt_of_Encrypt _ _ _ _ _ He). reflexivity.
  - subst stored. reflexivity.
Qed.

(** A [Save] that succeeded is the [SaveBytes] of the encoding. *)
Lemma Save_succeeded_encoded (bl bl' : BoltLocknut) (w w' : World)
    (bucket key : string) (v : value) :
  Save bl w bucket key (Some v) = (Return None, bl', w') ->
  exists d, json_Marshal v = Ok d /\
            SaveBytes bl w bucket key (Some d) = (Return None, bl', w').
Proof.
  intros Hsave.
  destruct (json_Marshal v) as [d|err] eqn:Hm.
  - exists d. split; [reflexivity|].
    rewrite <- Hsave. unfold Save, SaveBytes, scoped.
    destruct (openDB bl w) as [[[[e|]|] bl0] w0]; try reflexivity.
    unfold update. rewrite Save_save_SaveBytes_save, Hm. reflexivity.
  - exfalso. rewrite Save_write_op in Hsave.
    pose proof (write_op_cases
                  (fun bl d => Save_save (secret bl) bucket key d) bl w (Some v)) as Hc.
    rewrite Hsave in Hc. cbn [fst snd] in Hc.
    inversion Hc as [| | bl0 w0 w2 d' tx' rnd' Ho0 Hd Hf Hdisk | |]; subst.
    injection Hd as <-. rewrite Save_save_SaveBytes_save, Hm in Hf. discriminate.
Qed.

(** X7. After a [SaveBytes] that returned no error, a [GetOne] of the same
    bucket and key on a connection that opens returns exactly the bytes
    saved, whatever the bucket held before (a value saved earlier under the
    key is replaced), and whether the key the handle holds was given or
    derived. *)
Theorem SaveBytes_GetOne (bl bl' bl1 : BoltLocknut) (w w' w1 : World)
    (bucket key : string) (d : bytes) :
  SaveBytes bl w bucket key (Some d) = (Return None, bl', w') ->
  openDB bl' w' = (Return None, bl1, w1) ->
  key <> EmptyString /\
  (exists b, disk w' !! bucket = Some b /\ is_Some (bucket_get key b)) /\
  fst (fst (GetOne bl' w' bucket key)) = Return (Ok d).
Proof.
  intros Hsave Ho.
  destruct (SaveBytes_succeeded _ _ _ _ _ _ _ Hsave)
    as (Hk & _ & bl0 & w0 & b & stored & _ & _ & Hdisk & _).
  split; [exact Hk|]. split.
  - exists (bucket_put key stored b). rewrite Hdisk, lookup_insert_eq.
    split; [reflexivity|]. rewrite bucket_get_put. eauto.
  - apply (GetOne_after_SaveBytes bl bl' bl1 w w' w1 bucket key d Hsave Ho).
Qed.

(** X8. After a [Save] that returned no error, a [GetOne] of the same
    bucket and key on a connection that opens returns the JSON encoding of
    the value saved. *)
Theorem Save_GetOne (bl bl' bl1 : BoltLocknut) (w w' w1 : World)
    (bucket key : string) (v : value) :
  Save bl w bucket key (Some v) = (Return None, bl', w') ->
  openDB bl' w' = (Return None, bl1, w1) ->
  exists d, json_Marshal v = Ok d /\
            fst (fst (GetOne bl' w' bucket key)) = Return (Ok d).
Proof.
  intros Hsave Ho.
  destruct (Save_succeeded_encoded _ _ _ _ _ _ _ Hsave) as (d & Hm & Hbytes).
  exists d. split; [exact Hm|].
  apply (GetOne_after_SaveBytes bl bl' bl1 w w' w1 bucket key d Hbytes Ho).
Qed.

End RoundTrips.

Section Deleting.
Context `{E : Extern}.

(** X9. In a bucket that exists, with a key that is not empty and a
    connection that opens, [Delete] returns no error whether or not the key
    is there.  Afterwards the bucket holds no record under the key and, for
    every other key, the value it held; when the key was not there the
    bucket is exactly as before, so deleting a second time changes
    nothing. *)
Theorem Delete_removes_key (bl bl1 : BoltLocknut) (w w1 : World)
    (bucket key : string) (b : Bucket) :
  key <> EmptyString ->
  openDB bl w = (Return None, bl1, w1) ->
  disk w1 !! bucket = Some b ->
  fst (fst (Delete bl w bucket key)) = Return None /\
  disk (snd (Delete bl w bucket key)) = <[bucket := bucket_delete key b]> (disk w1) /\
  bucket_get key (bucket_delete key b) = None /\
  (forall k', k' <> key -> bucket_get k' (bucket_delete key b) = bucket_get k' b) /\
  (bucket_get key b = None -> bucket_delete key b = b) /\
  bucket_delete key (bucket_delete key b) = bucket_delete key b.
Proof.
  intros Hk Ho Hb.
  assert (Hd : Delete bl w bucket key =
               (Return None,
                fst (closeDB bl1 (set_rand (rand_Reader w1)
                       (set_disk (<[bucket := bucket_delete key b]> (disk w1)) w1))),
                snd (closeDB bl1 (set_rand (rand_Reader w1)
                       (set_disk (<[bucket := bucket_delete key b]> (disk w1)) w1))))).
  { unfold Delete, scoped. rewrite Ho.
    apply String.eqb_neq in Hk. rewrite Hk.
    unfold update, Delete_delete, Bucket_Delete, Tx_Bucket. rewrite Hb.
    destruct (closeDB bl1 _). reflexivity. }
  rewrite Hd. cbn [fst snd].
  split; [reflexivity|]. split.
  { destruct (closeDB_frame bl1 (set_rand (rand_Reader w1)
                (set_disk (<[bucket := bucket_delete key b]> (disk w1)) w1)))
      as (_ & _ & _ & -> & _). reflexivity. }
  split; [apply bucket_get_delete|].
  split; [intros k' Hne; apply bucket_get_delete_other, Hne|].
  split; [apply bucket_delete_absent|].
  apply bucket_delete_absent, bucket_get_delete.
Qed.

End Deleting.

(** ** Scanning a bucket in key order *)

Section ScanOrder.
Context `{E : Extern}.

Lemma sorted_tail_above (p k : string) (v : bytes) (l : Bucket) :
  String.ltb k p = false -> Forall (key_lt (k, v)) l ->
  Forall (fun kv => String.ltb (fst kv) p = false) l.
Proof.
  intros Hk Hall. eapply Forall_impl; [exact Hall|].
  intros [k2 v2] H2. unfold key_lt in H2. cbn in *.
  destruct (String.ltb k2 p) eqn:H2p; [|reflexivity].
  rewrite (String_ltb_trans k k2 p H2 H2p) in Hk. discriminate.
Qed.

Lemma filter_under_none (p k : string) (v : bytes) (l : Bucket) :
  String.ltb k p = false -> HasPrefix k p = false -> Forall (key_lt (k, v)) l ->
  List.filter (under p) l = [].
Proof.
  intros Hk Hp Hall. induction Hall as [|[k2 v2] l H2 _ IH]; [reflexivity|].
  cbn [List.filter]. unfold under at 1. cbn [fst].
  rewrite (HasPrefix_gap p k k2 Hk Hp H2). exact IH.
Qed.

(** On a sorted bucket, [Seek] drops only records that are not under the
    prefix, and what is left is sorted and not below the prefix. *)
Lemma Cursor_Seek_sorted (p : string) (b : Bucket) :
  bucket_sorted b ->
  bucket_sorted (Cursor_Seek p b) /\
  Forall (fun kv => String.ltb (fst kv) p = false) (Cursor_Seek p b) /\
  List.filter (under p) (Cursor_Seek p b) = List.filter (under p) b.
Proof.
  unfold bucket_sorted. intros Hs.
  induction Hs as [|[k v] b Hs IH Hall]; cbn [Cursor_Seek].
  - split; [constructor|]. split; [constructor | reflexivity].
  - destruct (String.ltb k p) eqn:Hk.
    + destruct IH as (H1 & H2 & H3). split; [exact H1|]. split; [exact H2|].
      cbn [List.filter]. unfold under at 2. cbn [fst].
      destruct (HasPrefix k p) eqn:Hp; [|exact H3].
      rewrite (HasPrefix_not_below k p Hp) in Hk. discriminate.
    + split; [constructor; assumption|]. split; [|reflexivity].
      constructor; [exact Hk|]. apply (sorted_tail_above p k v b Hk Hall).
Qed.

Lemma GetKeyList_loop_sorted (p : string) (l : Bucket) (acc : list string) :
  bucket_sorted l ->
  Forall (fun kv => String.ltb (fst kv) p = false) l ->
  GetKeyList_loop p l acc = acc ++ map fst (List.filter (under p) l).
Proof.
  unfold bucket_sorted. intros Hs. revert acc.
  induction Hs as [|[k v] l Hs IH Hall]; intros acc Hge; cbn [GetKeyList_loop].
  - cbn. rewrite app_nil_r. reflexivity.
  - apply Forall_cons in Hge as [Hk Hge]. cbn [fst] in Hk.
    cbn [List.filter]. unfold under at 1. cbn [fst].
    destruct (HasPrefix k p) eqn:Hp.
    + rewrite (IH _ Hge). cbn [map fst]. rewrite <- app_assoc. reflexivity.
    + rewrite (filter_under_none p k v l Hk Hp Hall). cbn. rewrite app_nil_r. reflexivity.
Qed.

(** X10. On a bucket whose keys ascend, with a connection that opens,
    [GetKeyList] returns no error and exactly the stored keys that have the
    prefix, in the order of the bucket: a key is in the list if and only if
    it is stored and has the prefix, and with the empty prefix the list is
    all the keys. *)
Theorem GetKeyList_exact (bl bl1 : BoltLocknut) (w w1 : World)
    (bucket pfx : string) (b : Bucket) :
  openDB bl w = (Return None, bl1, w1) ->
  disk w1 !! bucket = Some b ->
  bucket_sorted b ->
  GetKeyList bl w bucket pfx =
    (Return (Some (map fst (List.filter (under pfx) b)), None),
     fst (closeDB bl1 w1), snd (closeDB bl1 w1)) /\
  (forall k, In k (map fst (List.filter (under pfx) b)) <->
             HasPrefix k pfx = true /\ exists v, In (k, v) b) /\
  (pfx = EmptyString -> map fst (List.filter (under pfx) b) = map fst b).
Proof.
  intros Ho Hb Hs. split; [|split].
  - unfold GetKeyList, scoped. rewrite Ho.
    unfold view, GetKeyList_seekPrefix, Tx_Bucket. rewrite Hb.
    destruct (Cursor_Seek_sorted pfx b Hs) as (H1 & H2 & H3).
    rewrite (GetKeyList_loop_sorted pfx _ [] H1 H2), H3. cbn [app].
    destruct (closeDB bl1 w1). reflexivity.
  - intros k. rewrite List.in_map_iff. split.
    + intros ([k' v] & <- & Hin). apply List.filter_In in Hin as [Hin Hu].
      split; [exact Hu | eauto].
    + intros (Hp & v & Hin). exists (k, v). split; [reflexivity|].
      apply List.filter_In. split; [exact Hin | exact Hp].
  - intros ->. f_equal. clear. induction b as [|[k v] b IH]; [reflexivity|].
    cbn [List.filter]. unfold under at 1. cbn [fst].
    rewrite HasPrefix_empty, IH. reflexivity.
Qed.

Lemma collect_lookup_other (good : list scanned) (m : gmap string bytes) (k : string) :
  (forall g, In g good -> s_key g <> k) -> collect m good !! k = m !! k.
Proof.
  revert m. induction good as [|g good IH]; intros m Hne; [reflexivity|].
  unfold collect in *. cbn [foldl]. rewrite IH.
  - apply lookup_insert_ne. apply Hne. left. reflexivity.
  - intros g' Hin. apply Hne. right. exact Hin.
Qed.

Lemma collect_lookup (good : list scanned) (m : gmap string bytes) (g : scanned) :
  NoDup (map s_key good) -> In g good ->
  collect m good !! s_key g = Some (s_plain g).
Proof.
  revert m. induction good as [|g0 good IH]; intros m Hnd Hin; [destruct Hin|].
  cbn [map] in Hnd. apply NoDup_cons in Hnd as [Hnotin Hnd].
  unfold collect in *. cbn [foldl]. destruct Hin as [->|Hin].
  - fold (collect (<[s_key g := s_plain g]> m) good).
    rewrite collect_lookup_other.
    + apply lookup_insert_eq.
    + intros g' Hg' Heq. apply Hnotin. rewrite <- Heq.
      apply list_elem_of_In, List.in_map, Hg'.
  - apply IH; assumption.
Qed.

Lemma sorted_filter (f : string * bytes -> bool) (l : Bucket) :
  bucket_sorted l -> bucket_sorted (List.filter f l).
Proof.
  unfold bucket_sorted. intros Hs.
  induction Hs as [|kv l Hs IH Hall]; cbn [List.filter]; [constructor|].
  destruct (f kv); [|exact IH].
  constructor; [exact IH|].
  apply List.Forall_forall. intros x Hx. apply List.filter_In in Hx as [Hx _].
  apply (proj1 (List.Forall_forall _ _) Hall x Hx).
Qed.

Lemma sorted_keys_NoDup (l : Bucket) : bucket_sorted l -> NoDup (map fst l).
Proof.
  unfold bucket_sorted. intros Hs.
  induction Hs as [|[k v] l Hs IH Hall]; cbn [map]; [constructor|].
  apply NoDup_cons. split; [|exact IH].
  intros Hin. apply list_elem_of_In, List.in_map_iff in Hin as ([k2 v2] & Heq & Hin).
  cbn in Heq. subst k2.
  pose proof (proj1 (List.Forall_forall _ _) Hall _ Hin) as Hlt.
  unfold key_lt in Hlt. cbn in Hlt. rewrite String_ltb_irrefl in Hlt. discriminate.
Qed.

Lemma GetByPrefix_loop_sorted (s : bytes) (p : string) (l : Bucket)
    (good : list scanned) (m : gmap string bytes) :
  bucket_sorted l ->
  Forall (fun kv => String.ltb (fst kv) p = false) l ->
  Forall (fun kv => fst kv <> EmptyString) l ->
  map record_of good = List.filter (under p) l ->
  Forall (fun g => Decrypt (s_value g) s = Ok (s_plain g)) good ->
  GetByPrefix_loop (Some s) p l m = (collect m good, None).
Proof.
  unfold bucket_sorted. intros Hs. revert good m.
  induction Hs as [|[k v] l Hs IH Hall]; intros good m Hge Hne Hgood Hdec;
    cbn [GetByPrefix_loop].
  - destruct good; [reflexivity | discriminate].
  - apply Forall_cons in Hge as [Hk Hge]. apply Forall_cons in Hne as [Hkne Hne].
    cbn [fst] in Hk, Hkne.
    cbn [List.filter] in Hgood. unfold under at 1 in Hgood. cbn [fst] in Hgood.
    destruct (HasPrefix k p) eqn:Hp.
    + destruct good as [|g good]; [discriminate|].
      cbn [map] in Hgood. injection Hgood as Hgk Hgv Hgood.
      apply Forall_cons in Hdec as [Hd Hdec].
      assert (Hlen : (String.length k =? 0) = false) by (destruct k; [congruence | reflexivity]).
      rewrite Hlen, andb_false_r. cbn [andb].
      rewrite <- Hgv, Hd, <- Hgk. apply (IH good _ Hge Hne Hgood Hdec).
    + rewrite (filter_under_none p k v l Hk Hp Hall) in Hgood.
      destruct good; [reflexivity | discriminate].
Qed.

(** X11. With a secret set and a connection that opens, on a bucket whose
    keys ascend and are not empty: when every record under the prefix
    decrypts ([good] lists them in order: key, stored value, plaintext),
    [GetByPrefix] returns no error and the map that holds, for each of those
    records, its plaintext under its key, and nothing under any other
    key. *)
Theorem GetByPrefix_complete (bl bl1 : BoltLocknut) (w w1 : World)
    (bucket pfx : string) (b : Bucket) (s : bytes) (good : list scanned) :
  openDB bl w = (Return None, bl1, w1) ->
  secret bl = Some s ->
  disk w1 !! bucket = Some b ->
  bucket_sorted b ->
  Forall (fun kv => fst kv <> EmptyString) b ->
  map record_of good = List.filter (under pfx) b ->
  Forall (fun g => Decrypt (s_value g) s = Ok (s_plain g)) good ->
  GetByPrefix bl w bucket pfx =
    (Return (Some (collect ∅ good), None), fst (closeDB bl1 w1), snd (closeDB bl1 w1)) /\
  (forall g, In g good -> collect ∅ good !! s_key g = Some (s_plain g)) /\
  (forall k, (forall g, In g good -> s_key g <> k) -> collect ∅ good !! k = None).
Proof.
  intros Ho Hsec Hb Hs Hne Hgood Hdec. split; [|split].
  - rewrite (GetByPrefix_opened _ _ _ _ bucket pfx Ho).
    unfold GetByPrefix_seekPrefix, Tx_Bucket. rewrite Hb, Hsec.
    destruct (Cursor_Seek_sorted pfx b Hs) as (H1 & H2 & H3).
    rewrite (GetByPrefix_loop_sorted s pfx (Cursor_Seek pfx b) good ∅ H1 H2).
    + reflexivity.
    + apply List.Forall_forall. intros kv Hin.
      apply (proj1 (List.Forall_forall _ _) Hne kv), (Cursor_Seek_In pfx), Hin.
    + rewrite H3. exact Hgood.
    + exact Hdec.
  - intros g Hin. apply collect_lookup; [|exact Hin].
    assert (Hk : map s_key good = map fst (map record_of good)).
    { rewrite List.map_map. reflexivity. }
    rewrite Hk, Hgood. apply sorted_keys_NoDup, sorted_filter, Hs.
  - intros k Hk. rewrite (collect_lookup_other good ∅ k Hk). apply lookup_empty.
Qed.

End ScanOrder.

(** ** The buckets of the handle and the constructor *)

Section Buckets.
Context `{E : Extern}.

Lemma initbuckets_creates (names : list string) (tx tx' : Disk) (n : string) :
  initbuckets names tx = Ok tx' -> In n names -> is_Some (tx' !! n).
Proof.
  revert tx. induction names as [|bname rest IH]; intros tx; cbn [initbuckets];
    [intros _ []|].
  destruct (CreateBucketIfNotExists bname tx) as [tx1|err] eqn:Hc; [|discriminate].
  intros Hi [<-|Hin]; [|apply (IH tx1 Hi Hin)].
  assert (H1 : is_Some (tx1 !! bname)).
  { unfold CreateBucketIfNotExists in Hc.
    destruct (String.length bname =? 0); [discriminate|].
    destruct (tx !! bname) as [b0|] eqn:Hl; injection Hc as <-.
    - rewrite Hl. eauto.
    - rewrite lookup_insert_eq. eauto. }
  destruct H1 as [b Hb].
  destruct (initbuckets_extends rest tx1 tx' Hi bname) as [Hkeep _]. eauto.
Qed.

Lemma initbuckets_result (names : list string) (tx : Disk) :
  (In EmptyString names -> initbuckets names tx = Err ErrBucketNameRequired) /\
  (~ In EmptyString names -> exists tx', initbuckets names tx = Ok tx').
Proof.
  revert tx. induction names as [|bname rest IH]; intros tx; cbn [initbuckets].
  - split; [intros [] | eauto].
  - unfold CreateBucketIfNotExists.
    destruct bname as [|a bname]; cbn [String.length Nat.eqb].
    + split; [reflexivity|]. intros H. contradiction H. left. reflexivity.
    + destruct (tx !! String a bname).
      * destruct (IH tx) as [H1 H2]. split.
        -- intros [H|H]; [discriminate | auto].
        -- intros H. apply H2. intros Hin. apply H. right. exact Hin.
      * destruct (IH (<[String a bname := []]> tx)) as [H1 H2]. split.
        -- intros [H|H]; [discriminate | auto].
        -- intros H. apply H2. intros Hin. apply H. right. exact Hin.
Qed.

(** X12. On a handle that holds no connection, once [openDB] has succeeded
    every bucket the handle was configured with exists.  On such a bucket
    [Delete], [SaveBytes] and [Save] do not panic, [GetOne] does not return
    [ErrBucketNotFound], and [GetKeyList] returns no error. *)
Theorem configured_bucket_exists (bl bl1 : BoltLocknut) (w w1 : World)
    (bucket key : string) (data : option value) (raw : option bytes) :
  openDB bl w = (Return None, bl1, w1) ->
  db bl = None ->
  In bucket (buckets bl) ->
  is_Some (disk w1 !! bucket) /\
  fst (fst (Delete bl w bucket key)) <> Panic /\
  fst (fst (SaveBytes bl w bucket key raw)) <> Panic /\
  fst (fst (Save bl w bucket key data)) <> Panic /\
  fst (fst (GetOne bl w bucket key)) <> Return (Err ErrBucketNotFound) /\
  exists keys, fst (fst (GetKeyList bl w bucket key)) = Return (Some keys, None).
Proof.
  intros Ho Hdb Hin.
  assert (Hex : is_Some (disk w1 !! bucket)).
  { pose proof (openDB_inv _ _ _ _ _ Ho) as Hc.
    inversion Hc as [Hb Hd | | | w2 Hg Hi Hr Hop Hcl]; subst; [contradiction|].
    apply (initbuckets_creates _ _ _ _ Hi Hin). }
  destruct Hex as [b Hb].
  split; [eauto|]. split; [|split; [|split; [|split]]].
  - unfold Delete, scoped. rewrite Ho.
    destruct (String.eqb key EmptyString).
    + destruct (closeDB bl1 w1). cbn. discriminate.
    + unfold update, Delete_delete, Bucket_Delete, Tx_Bucket. rewrite Hb.
      destruct (closeDB bl1 _). cbn. discriminate.
  - rewrite SaveBytes_write_op.
    pose proof (write_op_cases
                  (fun bl d => SaveBytes_save (secret bl) bucket key d) bl w raw) as Hc.
    destruct (write_op _ bl w raw) as [[x bl'] w']. cbn [fst snd] in *.
    destruct Hc as [| | | | bl2 w2 w' d rnd' Ho2 _ Hf _]; try discriminate.
    rewrite Ho in Ho2. injection Ho2 as <- <-.
    pose proof (SaveBytes_save_cases (secret bl1) bucket key d (disk w1) (rand_Reader w1)) as Hs.
    rewrite Hf, Hb in Hs. discriminate.
  - rewrite Save_write_op.
    pose proof (write_op_cases
                  (fun bl d => Save_save (secret bl) bucket key d) bl w data) as Hc.
    destruct (write_op _ bl w data) as [[x bl'] w']. cbn [fst snd] in *.
    destruct Hc as [| | | | bl2 w2 w' d rnd' Ho2 _ Hf _]; try discriminate.
    rewrite Ho in Ho2. injection Ho2 as <- <-.
    rewrite Save_save_SaveBytes_save in Hf.
    destruct (json_Marshal d) as [v|err]; [|discriminate].
    pose proof (SaveBytes_save_cases (secret bl1) bucket key v (disk w1) (rand_Reader w1)) as Hs.
    rewrite Hf, Hb in Hs. discriminate.
  - unfold GetOne, scoped. rewrite Ho.
    destruct (String.eqb key EmptyString).
    + destruct (closeDB bl1 w1). cbn. discriminate.
    + unfold view, GetOne_seek, Tx_Bucket. rewrite Hb.
      destruct (Cursor_Seek key b) as [|[k v] rest];
        [destruct (closeDB bl1 w1); cbn; discriminate|].
      destruct (HasPrefix k key); [|destruct (closeDB bl1 w1); cbn; discriminate].
      destruct (secret bl1) as [s|]; [|destruct (closeDB bl1 w1); cbn; discriminate].
      destruct (Decrypt v s); destruct (closeDB bl1 w1); cbn; discriminate.
  - unfold GetKeyList, scoped. rewrite Ho.
    unfold view, GetKeyList_seekPrefix, Tx_Bucket. rewrite Hb.
    destruct (closeDB bl1 w1). cbn. eauto.
Qed.

(** X13. A handle the constructor returns has the fields it was given, the
    secret [SetSecret] derives, and a connection exactly when it is in batch
    mode.  One connection was opened, and closed again unless in batch mode;
    every bucket named exists in the file, no name being empty; and the
    buckets that were in the file have kept their records. *)
Theorem NewBoltLocknut_success (os_Stat : string -> option FileMode)
    (nm pth : string) (secret0 : option bytes) (batch : bool)
    (bs : list string) (w w' : World) (bl : BoltLocknut) :
  NewBoltLocknut os_Stat nm pth secret0 batch bs w = (Return (Ok bl), w') ->
  (name bl = nm /\ path bl = pth /\ fullPath bl = filepath_Join pth nm /\
   buckets bl = bs /\ batchMode bl = batch) /\
  secret bl = (if len secret0 <? 32
               then Some (sha256_Sum256 (contents secret0)) else secret0) /\
  db bl = (if batch then Some {| conn_id := S (opened w) |} else None) /\
  opened w' = S (opened w) /\
  closed w' = (if batch then closed w else S (closed w)) /\
  (forall n, In n bs -> is_Some (disk w' !! n)) /\
  ~ In EmptyString bs /\
  disk_extends (disk w) (disk w') /\
  rand_Reader w' = rand_Reader w.
Proof.
  unfold NewBoltLocknut.
  destruct (_ && _); [discriminate|].
  destruct (match os_Stat _ with Some ModeRegular => false | Some _ => true | None => false end);
    [discriminate|].
  set (bl0 := SetSecret _ secret0).
  assert (Hf : name bl0 = nm /\ path bl0 = pth /\ fullPath bl0 = filepath_Join pth nm /\
               buckets bl0 = bs /\ batchMode bl0 = batch /\ db bl0 = None /\
               secret bl0 = (if len secret0 <? 32
                             then Some (sha256_Sum256 (contents secret0)) else secret0)).
  { unfold bl0, SetSecret. destruct (len secret0 <? 32); cbn; auto 10. }
  destruct Hf as (Hn & Hp & Hfp & Hbs & Hbm & Hdb & Hsec).
  destruct (openDB bl0 w) as [[[[err|]|] bl1] w1] eqn:Ho; try discriminate.
  pose proof (openDB_inv _ _ _ _ _ Ho) as Hc.
  inversion Hc as [Hb Hd | | | w2 Hg Hi Hr Hop Hcl]; subst bl1; [contradiction|].
  subst w2.
  unfold closeDB. cbn [batchMode set_db db isNil negb andb]. rewrite Hbm.
  assert (Hex : forall n, In n bs -> is_Some (disk w1 !! n)).
  { intros n Hin. rewrite <- Hbs in Hin. apply (initbuckets_creates _ _ _ _ Hi Hin). }
  assert (Hne : ~ In EmptyString bs).
  { intros Hin. rewrite <- Hbs in Hin.
    rewrite (proj1 (initbuckets_result (buckets bl0) (disk w)) Hin) in Hi. discriminate. }
  pose proof (initbuckets_extends _ _ _ Hi) as Hext.
  destruct batch; cbn [negb andb]; intros [= <- <-]; cbn; auto 12.
Qed.

(** X14. The constructor never panics.  When it returns an error no handle
    exists, the file holds what it held, and whatever connection was opened
    has been closed.  It returns [ErrPathInvalid], without touching
    anything, when the path is not empty and not a directory; and it never
    succeeds when one of the bucket names is empty: the creation of the
    buckets named before it is rolled back with the transaction. *)
Theorem NewBoltLocknut_failure (os_Stat : string -> option FileMode)
    (nm pth : string) (secret0 : option bytes) (batch : bool)
    (bs : list string) (w : World) :
  fst (NewBoltLocknut os_Stat nm pth secret0 batch bs w) <> Panic /\
  (forall err w', NewBoltLocknut os_Stat nm pth secret0 batch bs w = (Return (Err err), w') ->
                  disk w' = disk w /\ rand_Reader w' = rand_Reader w /\
                  opened w' + closed w = opened w + closed w') /\
  (pth <> EmptyString -> os_Stat pth <> Some ModeDir ->
   NewBoltLocknut os_Stat nm pth secret0 batch bs w = (Return (Err ErrPathInvalid), w)) /\
  (In EmptyString bs ->
   forall bl, fst (NewBoltLocknut os_Stat nm pth secret0 batch bs w) <> Return (Ok bl)).
Proof.
  split; [|split; [|split]].
  - unfold NewBoltLocknut.
    destruct (_ && _); [cbn; discriminate|].
    destruct (match os_Stat _ with Some ModeRegular => false | Some _ => true | None => false end);
      [cbn; discriminate|].
    destruct (openDB _ w) as [[[[err|]|] bl1] w1] eqn:Ho.
    + cbn. discriminate.
    + destruct (closeDB bl1 w1). cbn. discriminate.
    + exfalso. apply (openDB_no_panic _ _ _ _ Ho).
  - intros err w'. unfold NewBoltLocknut.
    destruct (_ && _); [intros [= <- <-]; auto|].
    destruct (match os_Stat _ with Some ModeRegular => false | Some _ => true | None => false end);
      [intros [= <- <-]; auto|].
    destruct (openDB _ w) as [[[[e|]|] bl1] w1] eqn:Ho.
    + intros [= <- <-]. pose proof (openDB_inv _ _ _ _ _ Ho) as Hc.
      inversion Hc; subst; cbn; repeat split; try assumption; lia.
    + destruct (closeDB bl1 w1). discriminate.
    + discriminate.
  - intros Hp Hs. unfold NewBoltLocknut.
    apply String.eqb_neq in Hp. rewrite Hp. cbn [negb andb].
    destruct (os_Stat pth) as [[| |]|]; try reflexivity. contradiction Hs. reflexivity.
  - intros Hin bl. unfold NewBoltLocknut.
    destruct (_ && _); [cbn; discriminate|].
    destruct (match os_Stat _ with Some ModeRegular => false | Some _ => true | None => false end);
      [cbn; discriminate|].
    set (bl0 := SetSecret _ secret0).
    assert (Hbs : buckets bl0 = bs /\ db bl0 = None).
    { unfold bl0, SetSecret. destruct (len secret0 <? 32); cbn; auto. }
    destruct Hbs as [Hbs Hdb].
    destruct (openDB bl0 w) as [[[[err|]|] bl1] w1] eqn:Ho; [cbn; discriminate | | cbn; discriminate].
    exfalso. pose proof (openDB_inv _ _ _ _ _ Ho) as Hc.
    inversion Hc as [Hb Hd | | | w2 Hg Hi Hr Hop Hcl]; [contradiction|].
    rewrite Hbs in Hi.
    rewrite (proj1 (initbuckets_result bs (disk w)) Hin) in Hi. discriminate.
Qed.

End Buckets.

Section Arguments.
Context `{E : Extern}.

(** X15. The checks of the arguments come after [openDB]: when the
    connection cannot be opened, [GetOne] and [Delete] with an empty key,
    and [Save] and [SaveBytes] with nil data, return the error of [openDB];
    when it opens they return their own errors, the connection is closed
    again as [closeDB] decides, and the file is as [openDB] left it, its
    records untouched. *)
Theorem invalid_arguments (bl : BoltLocknut) (w : World) (bucket key : string) :
  (forall bl1 w1, openDB bl w = (Return None, bl1, w1) ->
     GetOne bl w bucket EmptyString =
       (Return (Err ErrKeyInvalid), fst (closeDB bl1 w1), snd (closeDB bl1 w1)) /\
     Delete bl w bucket EmptyString =
       (Return (Some ErrDeleteKeyNil), fst (closeDB bl1 w1), snd (closeDB bl1 w1)) /\
     Save bl w bucket key None =
       (Return (Some ErrDataNil), fst (closeDB bl1 w1), snd (closeDB bl1 w1)) /\
     SaveBytes bl w bucket key None =
       (Return (Some ErrDataNil), fst (closeDB bl1 w1), snd (closeDB bl1 w1)) /\
     disk (snd (closeDB bl1 w1)) = disk w1 /\
     disk_extends (disk w) (disk w1)) /\
  (forall err bl1 w1, openDB bl w = (Return (Some err), bl1, w1) ->
     GetOne bl w bucket EmptyString = (Return (Err err), bl, w1) /\
     Delete bl w bucket EmptyString = (Return (Some err), bl, w1) /\
     Save bl w bucket key None = (Return (Some err), bl, w1) /\
     SaveBytes bl w bucket key None = (Return (Some err), bl, w1) /\
     disk w1 = disk w).
Proof.
  split.
  - intros bl1 w1 Ho. unfold GetOne, Delete, Save, SaveBytes, scoped. rewrite Ho.
    cbn [String.eqb].
    destruct (closeDB_frame bl1 w1) as (_ & _ & _ & Hd & _).
    destruct (openDB_ok _ _ _ _ Ho) as (_ & _ & _ & Hext & _).
    destruct (closeDB bl1 w1). cbn [fst snd] in *. auto 10.
  - intros err bl1 w1 Ho. unfold GetOne, Delete, Save, SaveBytes, scoped. rewrite Ho.
    destruct (openDB_err _ _ _ _ _ Ho) as (-> & Hd & _). auto 10.
Qed.

(** X16. [SetBatchMode] changes the flag and, when turning batch mode off,
    closes the connection the handle holds, if any; it touches neither the
    file, nor the secret, nor the random source.  Called a second time with
    the same mode it changes nothing. *)
Theorem SetBatchMode_idempotent (bl : BoltLocknut) (w : World) (mode : bool) :
  batchMode (fst (SetBatchMode bl w mode)) = mode /\
  (mode = false -> db (fst (SetBatchMode bl w mode)) = None) /\
  (mode = true -> db (fst (SetBatchMode bl w mode)) = db bl /\
                  snd (SetBatchMode bl w mode) = w) /\
  (disk (snd (SetBatchMode bl w mode)) = disk w /\
   rand_Reader (snd (SetBatchMode bl w mode)) = rand_Reader w /\
   secret (fst (SetBatchMode bl w mode)) = secret bl) /\
  (closed (snd (SetBatchMode bl w mode))
   = if negb mode && negb (isNil (db bl)) then S (closed w) else closed w) /\
  SetBatchMode (fst (SetBatchMode bl w mode)) (snd (SetBatchMode bl w mode)) mode
  = SetBatchMode bl w mode.
Proof.
  unfold SetBatchMode, closeDB. destruct mode; cbn.
  - repeat split; try reflexivity; try discriminate.
  - destruct (db bl) as [d|] eqn:Hd; cbn; rewrite ?Hd; cbn;
      repeat split; try reflexivity; try discriminate.
Qed.

End Arguments.

(** ** Runs of the further properties on the example store *)

Lemma pii_world_sorted_nonempty :
  disk_sorted (disk pii_world) /\ keys_nonempty (disk pii_world).
Proof.
  split.
  - intros bn b Hb. destruct (decide (bn = "pii"%string)) as [->|Hne].
    + vm_compute in Hb. injection Hb as <-. repeat constructor.
    + unfold pii_world, world0 in Hb. cbn [disk] in Hb.
      rewrite lookup_singleton_ne in Hb by congruence. discriminate.
  - intros bn b k v Hb Hin. destruct (decide (bn = "pii"%string)) as [->|Hne].
    + vm_compute in Hb. injection Hb as <-.
      destruct Hin as [H|[H|[H|[]]]]; injection H as <- _; discriminate.
    + unfold pii_world, world0 in Hb. cbn [disk] in Hb.
      rewrite lookup_singleton_ne in Hb by congruence. discriminate.
Qed.

Lemma calls_keep_store_wellformed_witness :
  disk_sorted (disk (snd (run example_saves pii_handle (set_rand (tape x01 36) pii_world)))) /\
  keys_nonempty (disk (snd (run example_saves pii_handle (set_rand (tape x01 36) pii_world)))) /\
  is_Some (disk (snd (run example_saves pii_handle (set_rand (tape x01 36) pii_world)))
             !! "pii"%string).
Proof.
  destruct (calls_keep_store_wellformed example_saves pii_handle
              (set_rand (tape x01 36) pii_world)) as (H1 & H2 & H3).
  split; [apply H1, pii_world_sorted_nonempty|].
  split; [apply H2, pii_world_sorted_nonempty|].
  apply H3. vm_compute. eauto.
Defined.

Lemma SaveBytes_GetOne_witness :
  fst (fst (GetOne (snd (fst resaved)) (snd resaved) "pii" "taylor"))
  = Return (Ok (str_bytes "new")).
Proof.
  refine (proj2 (proj2 (SaveBytes_GetOne pii_handle (snd (fst resaved))
            (snd (fst (openDB (snd (fst resaved)) (snd resaved))))
            (set_rand (tape x03 12) pii_world) (snd resaved)
            (snd (openDB (snd (fst resaved)) (snd resaved)))
            "pii" "taylor" (str_bytes "new") _ _))).
  - vm_compute. reflexivity.
  - vm_compute. reflexivity.
Defined.

Lemma Save_GetOne_witness :
  exists d, json_Marshal (str_bytes "{}") = Ok d /\
            fst (fst (GetOne (snd (fst resaved_json)) (snd resaved_json) "pii" "taylor"))
            = Return (Ok d).
Proof.
  refine (Save_GetOne pii_handle (snd (fst resaved_json))
            (snd (fst (openDB (snd (fst resaved_json)) (snd resaved_json))))
            (set_rand (tape x03 12) pii_world) (snd resaved_json)
            (snd (openDB (snd (fst resaved_json)) (snd resaved_json)))
            "pii" "taylor" (str_bytes "{}") _ _).
  - vm_compute. reflexivity.
  - vm_compute. reflexivity.
Defined.

Lemma Delete_removes_key_witness :
  fst (fst (Delete pii_handle pii_world "pii" "taylor")) = Return None /\
  fst (fst (Delete pii_handle pii_world "pii" "nobody")) = Return None /\
  bucket_delete "nobody" pii_bucket = pii_bucket.
Proof.
  split; [|split].
  - refine (proj1 (Delete_removes_key pii_handle pii_opened pii_world pii_opened_world
                     "pii" "taylor" pii_bucket _ _ _)).
    + discriminate.
    + vm_compute. reflexivity.
    + vm_compute. reflexivity.
  - refine (proj1 (Delete_removes_key pii_handle pii_opened pii_world pii_opened_world
                     "pii" "nobody" pii_bucket _ _ _)).
    + discriminate.
    + vm_compute. reflexivity.
    + vm_compute. reflexivity.
  - refine (proj1 (proj2 (proj2 (proj2 (proj2
              (Delete_removes_key pii_handle pii_opened pii_world pii_opened_world
                 "pii" "nobody" pii_bucket _ _ _))))) _).
    + discriminate.
    + vm_compute. reflexivity.
    + vm_compute. reflexivity.
    + reflexivity.
Defined.

Lemma GetKeyList_exact_witness :
  fst (fst (GetKeyList pii_handle pii_world "pii" "t"))
  = Return (Some ["taylor"%string; "test"%string], None).
Proof.
  rewrite (proj1 (GetKeyList_exact pii_handle pii_opened pii_world pii_opened_world
                    "pii" "t" pii_bucket eq_refl eq_refl
                    (proj1 pii_world_sorted_nonempty "pii"%string pii_bucket eq_refl))).
  reflexivity.
Defined.

Lemma GetByPrefix_complete_witness :
  fst (fst (GetByPrefix pii_handle pii_world "pii" "t"))
  = Return (Some (collect ∅ pii_under_t), None) /\
  collect ∅ pii_under_t !! "test"%string = Some (str_bytes "E").
Proof.
  destruct (GetByPrefix_complete pii_handle pii_opened pii_world pii_opened_world
              "pii" "t" pii_bucket key32 pii_under_t) as (H1 & H2 & _).
  - vm_compute. reflexivity.
  - reflexivity.
  - vm_compute. reflexivity.
  - apply (proj1 pii_world_sorted_nonempty "pii"%string pii_bucket). reflexivity.
  - repeat constructor; discriminate.
  - reflexivity.
  - repeat constructor.
  - split; [rewrite H1; reflexivity|].
    apply (H2 {| s_key := "test"; s_value := sim_payload (str_bytes "E");
                 s_plain := str_bytes "E" |}).
    right. left. reflexivity.
Defined.

Lemma configured_bucket_exists_witness :
  is_Some (disk pii_opened_world !! "jids"%string) /\
  fst (fst (Delete pii_handle pii_world "jids" "taylor")) <> Panic.
Proof.
  destruct (configured_bucket_exists pii_handle pii_opened pii_world pii_opened_world
              "jids" "taylor" None None) as (H1 & H2 & _).
  - vm_compute. reflexivity.
  - reflexivity.
  - right. left. reflexivity.
  - split; assumption.
Defined.

Lemma NewBoltLocknut_success_witness :
  db example_handle = None /\
  is_Some (disk (snd example_new) !! "jids"%string) /\
  opened (snd example_new) = 1 /\ closed (snd example_new) = 1.
Proof.
  destruct (NewBoltLocknut_success example_stat "test.db" "." (Some key32) false
              ["pii"%string; "jids"%string] (world0 ∅ []) (snd example_new)
              example_handle) as (_ & _ & Hdb & Ho & Hc & Hb & _).
  - vm_compute. reflexivity.
  - split; [exact Hdb|]. split; [|split; [exact Ho | exact Hc]].
    apply Hb. right. left. reflexivity.
Defined.

Lemma NewBoltLocknut_failure_witness :
  NewBoltLocknut example_stat "test.db" "nowhere" (Some key32) false
    ["pii"%string] (world0 ∅ [])
  = (Return (Err ErrPathInvalid), world0 ∅ []) /\
  (forall bl, fst (NewBoltLocknut example_stat "test.db" "." (Some key32) false
                     ["pii"%string; EmptyString] (world0 ∅ [])) <> Return (Ok bl)).
Proof.
  split.
  - refine (proj1 (proj2 (proj2 (NewBoltLocknut_failure example_stat "test.db" "nowhere"
              (Some key32) false ["pii"%string] (world0 ∅ [])))) _ _).
    + discriminate.
    + discriminate.
  - refine (proj2 (proj2 (proj2 (NewBoltLocknut_failure example_stat "test.db" "."
              (Some key32) false ["pii"%string; EmptyString] (world0 ∅ [])))) _).
    right. left. reflexivity.
Defined.

Lemma invalid_arguments_witness :
  fst (fst (GetOne pii_handle pii_world "pii" EmptyString)) = Return (Err ErrKeyInvalid) /\
  fst (fst (SaveBytes pii_handle pii_world "pii" "taylor" None))
  = Return (Some ErrDataNil).
Proof.
  destruct (proj1 (invalid_arguments pii_handle pii_world "pii" "taylor")
              pii_opened pii_opened_world) as (H1 & _ & _ & H4 & _).
  - vm_compute. reflexivity.
  - rewrite H1, H4. split; reflexivity.
Defined.

(** ** What the operations leave alone *)

Section Frames.
Context `{E : Extern}.

Lemma scoped_rand {A : Type} (bl : BoltLocknut) (w : World) (on_err : error -> A)
    (body : BoltLocknut -> World -> exit A * World) :
  (forall bl1 w1, rand_Reader (snd (body bl1 w1)) = rand_Reader w1) ->
  rand_Reader (snd (scoped bl w on_err body)) = rand_Reader w.
Proof.
  intros Hbody. unfold scoped.
  destruct (openDB bl w) as [[[[err|]|] bl1] w1] eqn:Ho.
  - cbn. apply (openDB_err _ _ _ _ _ Ho).
  - destruct (openDB_ok _ _ _ _ Ho) as (_ & _ & _ & _ & Hr).
    pose proof (Hbody bl1 w1) as Hb.
    destruct (body bl1 w1) as [x w2]. cbn [snd] in Hb.
    pose proof (closeDB_frame bl1 w2) as (_ & _ & _ & _ & Hc).
    destruct (closeDB bl1 w2) as [bl3 w3]. cbn [snd] in *. congruence.
  - exfalso. apply (openDB_no_panic _ _ _ _ Ho).
Qed.

(** X17. [GetOne], [GetByPrefix] and [GetKeyList] read no random byte and
    change no record: after them every bucket that was in the file holds
    what it held, and a bucket that has appeared (one the handle is
    configured with, created by [openDB]) is empty.  [Delete] reads no
    random byte either. *)
Theorem reads_change_nothing (bl : BoltLocknut) (w : World) (bucket key : string) :
  (disk_extends (disk w) (disk (snd (GetOne bl w bucket key))) /\
   rand_Reader (snd (GetOne bl w bucket key)) = rand_Reader w) /\
  (disk_extends (disk w) (disk (snd (GetByPrefix bl w bucket key))) /\
   rand_Reader (snd (GetByPrefix bl w bucket key)) = rand_Reader w) /\
  (disk_extends (disk w) (disk (snd (GetKeyList bl w bucket key))) /\
   rand_Reader (snd (GetKeyList bl w bucket key)) = rand_Reader w) /\
  rand_Reader (snd (Delete bl w bucket key)) = rand_Reader w.
Proof.
  assert (Htrans : forall d d', disk_extends d d' ->
            disk_extends (disk w) d -> disk_extends (disk w) d').
  { intros d d' H1 H2. apply (disk_extends_trans _ _ _ H2 H1). }
  split; [split|split; [split|split; [split|]]].
  - unfold GetOne.
    apply (scoped_invariant (disk_extends (disk w))); [exact Htrans | | apply disk_extends_refl].
    intros bl1 w1 H1. destruct (String.eqb key EmptyString); [exact H1|].
    destruct (view _ w1) as [r [err|]]; exact H1.
  - unfold GetOne. apply scoped_rand.
    intros bl1 w1. destruct (String.eqb key EmptyString); [reflexivity|].
    destruct (view _ w1) as [r [err|]]; reflexivity.
  - unfold GetByPrefix.
    apply (scoped_invariant (disk_extends (disk w))); [exact Htrans | | apply disk_extends_refl].
    intros bl1 w1 H1. cbn zeta. destruct (view _ w1) as [r err]. exact H1.
  - unfold GetByPrefix. apply scoped_rand.
    intros bl1 w1. cbn zeta. destruct (view _ w1) as [r err]. reflexivity.
  - unfold GetKeyList.
    apply (scoped_invariant (disk_extends (disk w))); [exact Htrans | | apply disk_extends_refl].
    intros bl1 w1 H1. cbn zeta. destruct (view _ w1) as [r err]. exact H1.
  - unfold GetKeyList. apply scoped_rand.
    intros bl1 w1. cbn zeta. destruct (view _ w1) as [r err]. reflexivity.
  - unfold Delete. apply scoped_rand.
    intros bl1 w1. destruct (String.eqb key EmptyString); [reflexivity|].
    unfold update, Delete_delete.
    destruct (Bucket_Delete _ _ _ _); reflexivity.
Qed.

(** X18. A [Save] or [SaveBytes] that does not return success has stored
    nothing: whether it returned an error (the connection, the encoding,
    the encryption, the key or the value refused) or panicked, every bucket
    that was in the file holds what it held, and a bucket that has appeared
    is empty. *)
Theorem failed_save_stores_nothing (bl : BoltLocknut) (w : World)
    (bucket key : string) (data : option value) (raw : option bytes) :
  (fst (fst (Save bl w bucket key data)) <> Return None ->
   disk_extends (disk w) (disk (snd (Save bl w bucket key data)))) /\
  (fst (fst (SaveBytes bl w bucket key raw)) <> Return None ->
   disk_extends (disk w) (disk (snd (SaveBytes bl w bucket key raw)))).
Proof.
  assert (Hgen : forall (D : Type) (fn : BoltLocknut -> D -> Disk -> bytes -> wexit * bytes)
                        (dt : option D),
            fst (fst (write_op fn bl w dt)) <> Return None ->
            disk_extends (disk w) (disk (snd (write_op fn bl w dt)))).
  { intros D fn dt. pose proof (write_op_cases fn bl w dt) as Hc.
    destruct (write_op fn bl w dt) as [[x bl'] w']. cbn [fst snd] in *.
    destruct Hc as [err w' Hd | bl1 w1 w' Ho _ Hd | bl1 w1 w' d tx' rnd' Ho _ Hf Hd
                    | bl1 w1 w' d err rnd' Ho _ Hf Hd | bl1 w1 w' d rnd' Ho _ Hf Hd];
      intros Hx; try (contradiction Hx; reflexivity); rewrite Hd;
        try apply disk_extends_refl; apply (openDB_ok _ _ _ _ Ho). }
  rewrite Save_write_op, SaveBytes_write_op. split; apply Hgen.
Qed.

(** X19. A [SaveBytes] that returned no error has changed nothing but the
    record saved: every bucket that was in the file is still there, and
    under every key of it, other than the key saved in the bucket saved to,
    it holds the value it held. *)
Theorem SaveBytes_changes_one_record (bl bl' : BoltLocknut) (w w' : World)
    (bucket key : string) (d : bytes) (bn k' : string) (b0 : Bucket) :
  SaveBytes bl w bucket key (Some d) = (Return None, bl', w') ->
  disk w !! bn = Some b0 ->
  (bn, k') <> (bucket, key) ->
  exists b', disk w' !! bn = Some b' /\ bucket_get k' b' = bucket_get k' b0.
Proof.
  intros Hsave Hb0 Hne.
  destruct (SaveBytes_succeeded _ _ _ _ _ _ _ Hsave)
    as (_ & _ & bl1 & w1 & b & stored & Ho & Hb & Hdisk & _).
  destruct (openDB_ok _ _ _ _ Ho) as (_ & _ & _ & Hext & _).
  destruct (Hext bn) as [Hkeep _]. apply Hkeep in Hb0.
  rewrite Hdisk. destruct (decide (bucket = bn)) as [<-|Hbn].
  - rewrite lookup_insert_eq. eexists. split; [reflexivity|].
    assert (b0 = b) by congruence. subst b0.
    apply bucket_get_put_other. intros ->. apply Hne. reflexivity.
  - rewrite lookup_insert_ne by exact Hbn. eauto.
Qed.

End Frames.

Lemma reads_change_nothing_witness :
  disk_extends (disk pii_world) (disk (snd (GetOne pii_handle pii_world "pii" "ta"))) /\
  rand_Reader (snd (GetByPrefix pii_handle (set_rand (tape x01 12) pii_world) "pii" "t"))
  = tape x01 12.
Proof.
  split.
  - apply (proj1 (proj1 (reads_change_nothing pii_handle pii_world "pii" "ta"))).
  - apply (proj2 (proj1 (proj2 (reads_change_nothing pii_handle
                                  (set_rand (tape x01 12) pii_world) "pii" "t")))).
Defined.

Lemma failed_save_stores_nothing_witness :
  disk_extends (disk pii_world)
    (disk (snd (SaveBytes pii_handle pii_world "pii" "taylor" (Some (str_bytes "new"))))).
Proof.
  refine (proj2 (failed_save_stores_nothing pii_handle pii_world "pii" "taylor" None
                   (Some (str_bytes "new"))) _).
  vm_compute. discriminate.
Defined.

Lemma SaveBytes_changes_one_record_witness :
  exists b', disk (snd resaved) !! "pii"%string = Some b' /\
             bucket_get "test" b' = bucket_get "test" pii_bucket.
Proof.
  refine (SaveBytes_changes_one_record pii_handle (snd (fst resaved))
            (set_rand (tape x03 12) pii_world) (snd resaved)
            "pii" "taylor" (str_bytes "new") "pii" "test" pii_bucket _ _ _).
  - vm_compute. reflexivity.
  - vm_compute. reflexivity.
  - discriminate.
Defined.

Lemma SetBatchMode_idempotent_witness :
  db (fst (SetBatchMode batch_handle article_world false)) = None /\
  closed (snd (SetBatchMode batch_handle article_world false)) = 1 /\
  db (fst (SetBatchMode pii_handle pii_world true)) = None.
Proof.
  destruct (SetBatchMode_idempotent batch_handle article_world false)
    as (_ & Hoff & _ & _ & Hclosed & _).
  destruct (SetBatchMode_idempotent pii_handle pii_world true) as (_ & _ & Hon & _).
  split; [exact (Hoff eq_refl)|]. split; [exact Hclosed|].
  rewrite (proj1 (Hon eq_refl)). reflexivity.
Defined.
